(** * hti-cnn: the training driver [main.py]

    A shallow embedding of the driver's epoch loop ([main]) and of the
    metric pipeline of [validate], together with the properties its
    specification states about them.

    Conventions of the embedding.
    - Python integers are [Z]; [int(a / b)] truncates toward zero ([Z.quot]).
    - Performances, predictions and targets are floats in the source; they
      are rationals ([Q]) here, so rounding and NaN are outside the model.
      Comparisons with the literals [0] and [1] are [Qeq_bool].
    - The framework calls ([train], [validate], checkpointing, the summary
      writers) are external: a [world] says which call raises and what a
      validation returns; every call that returns is logged as an [event],
      stamped with the value the local variable [epoch] has at that time.
    - Local variables of [main] that may be unbound are [option]s; reading
      an unbound one raises [NameError] (Python's [UnboundLocalError] is a
      subclass of it). *)

From Stdlib Require Import List ZArith QArith Bool Lia Lqa Sorted Permutation.
From Stdlib Require Import String Ascii.
From Stdlib Require OrdersEx.
Import ListNotations.

Local Open Scope Z_scope.

(** ** Python preliminaries *)

Module Py.

Inductive exn : Type :=
| NameError (name : string)
| ZeroDivisionError
| ValueError
| KeyboardInterrupt
| RuntimeError.

(** [range(a, b)] *)
Definition range (a b : Z) : list Z :=
  map (fun i => a + Z.of_nat i) (seq 0 (Z.to_nat (b - a))).

(** [x in l] for a list of integers *)
Definition mem (x : Z) (l : list Z) : bool := existsb (Z.eqb x) l.

(** [a > b] on floats *)
Definition gt (a b : Q) : bool := negb (Qle_bool a b).

(** [max(a, b)]: the first argument unless the second is strictly greater *)
Definition max (a b : Q) : Q := if gt b a then b else a.

End Py.

(** ** The epoch loop of [main] *)

Module Main.

Import Py.

(** [session.ensemble_properties], when it is a non-empty dict.  A missing
    ["ensemble_type"] key is [None] (what [dict.get] returns). *)
Record ensemble_props : Type := {
  ensemble_type : option string;
  ensemble_size : Z;
  cycle_length : Z
}.

(** What [main] reads from the session before the loop. *)
Record session : Type := {
  ensemble_properties : option ensemble_props; (* [None]: empty, falsy *)
  has_val : bool;                              (* ["val" in datasets] *)
  start_epoch : Z;                             (* [session.epoch] *)
  session_best_performance : Q;                (* [session.best_performance] *)
  training_epochs : Z;                         (* [config.training.epochs] *)
  train_size : Z;                              (* [len(loader_train.dataset)] *)
  summaries : list string                      (* keys of [summaries] *)
}.

(** The external calls of the guarded block, by place. *)
Inductive site : Type :=
| STrain (epoch : Z)
| SValidate (epoch : Z)
| SSaveCheckpoint (epoch : Z)
| SSaveEnsemble (epoch : Z)
| SReinit (epoch : Z)
| SAbortSave
| SExport (name : string)
| SClose (name : string).

Record world : Type := {
  raises : site -> option exn;     (* the exception a call raises, if any *)
  validate_result : Z -> Q         (* what [eval_val] returns in an epoch *)
}.

(** The calls that returned. *)
Inductive event : Type :=
| Train (epoch : Z)
| Validate (samples_seen : Z)
| SaveCheckpoint (filename : option string) (performance : Q) (is_best : bool)
| SaveEnsembleCheckpoint (performance : Q) (name : string) (m : Z)
| ReInitialiseModel
| ExportScalarsToJson (name : string)
| Close (name : string).

(** The local variables of [main] that the guarded block assigns. *)
Record locals : Type := {
  epoch : option Z;
  total_epochs : option Z;
  m : option Z;
  performance : option Q;
  best_performance : Q;
  trace : list (option Z * event)
}.

Definition initial (s : session) : locals :=
  {| epoch := None; total_epochs := None; m := None; performance := None;
     best_performance := session_best_performance s; trace := [] |}.

(** *** A state and exception monad over the locals *)

Definition M (A : Type) : Type := locals -> locals * (exn + A).

Definition ret {A} (a : A) : M A := fun st => (st, inr a).

Definition bind {A B} (c : M A) (k : A -> M B) : M B :=
  fun st => match c st with
            | (st', inr a) => k a st'
            | (st', inl e) => (st', inl e)
            end.

Definition raise {A} (e : exn) : M A := fun st => (st, inl e).

Notation "x <- c ;; k" := (bind c (fun x => k))
  (at level 61, c at next level, right associativity).
Notation "c ;; k" := (bind c (fun _ => k))
  (at level 61, right associativity).

(** Reading a local that may be unbound. *)
Definition read {A} (name : string) (var : locals -> option A) : M A :=
  fun st => match var st with
            | Some v => (st, inr v)
            | None => (st, inl (NameError name))
            end.

Definition read_best : M Q := fun st => (st, inr (best_performance st)).

Definition set_epoch (e : Z) : M unit := fun st =>
  ({| epoch := Some e; total_epochs := total_epochs st; m := m st;
      performance := performance st; best_performance := best_performance st;
      trace := trace st |}, inr tt).

Definition set_total_epochs (t : Z) : M unit := fun st =>
  ({| epoch := epoch st; total_epochs := Some t; m := m st;
      performance := performance st; best_performance := best_performance st;
      trace := trace st |}, inr tt).

Definition set_m (v : Z) : M unit := fun st =>
  ({| epoch := epoch st; total_epochs := total_epochs st; m := Some v;
      performance := performance st; best_performance := best_performance st;
      trace := trace st |}, inr tt).

Definition set_performance (p : Q) : M unit := fun st =>
  ({| epoch := epoch st; total_epochs := total_epochs st; m := m st;
      performance := Some p; best_performance := best_performance st;
      trace := trace st |}, inr tt).

Definition set_best_performance (b : Q) : M unit := fun st =>
  ({| epoch := epoch st; total_epochs := total_epochs st; m := m st;
      performance := performance st; best_performance := b;
      trace := trace st |}, inr tt).

Definition log (ev : event) (st : locals) : locals :=
  {| epoch := epoch st; total_epochs := total_epochs st; m := m st;
     performance := performance st; best_performance := best_performance st;
     trace := trace st ++ [(epoch st, ev)] |}.

(** An external call: it raises what the world says, or returns and is
    logged. *)
Definition call (w : world) (at_site : site) (ev : event) : M unit :=
  fun st => match raises w at_site with
            | Some e => (st, inl e)
            | None => (log ev st, inr tt)
            end.

(** [for x in l: body] *)
Fixpoint for_each {A} (body : A -> M unit) (l : list A) : M unit :=
  match l with
  | [] => ret tt
  | x :: l' => body x ;; for_each body l'
  end.

(** [try: body finally: handler]: the handler runs on every exit; an
    exception of the handler replaces the pending one. *)
Definition try_finally {A} (body : M A) (handler : M unit) : M A :=
  fun st => match body st with
            | (st1, r) =>
                match handler st1 with
                | (st2, inl e) => (st2, inl e)
                | (st2, inr _) => (st2, r)
                end
            end.

(** *** The code *)

(** [ensemble_properties.get("ensemble_type") in l] *)
Definition type_in (p : ensemble_props) (l : list string) : bool :=
  match ensemble_type p with
  | Some t => existsb (String.eqb t) l
  | None => false
  end.

Definition ensemble_types : list string :=
  ["deep_ensemble"%string; "snapshot_ensemble"%string].

(** Lines 61-75: the schedule. *)
Definition schedule (s : session) : M unit :=
  match ensemble_properties s with
  | Some p =>
      if type_in p ensemble_types then
        set_total_epochs (ensemble_size p * cycle_length p) ;;
        (* m = int(start_epoch/cycle_length) *)
        if cycle_length p =? 0 then raise ZeroDivisionError
        else set_m (Z.quot (start_epoch s) (cycle_length p))
      else ret tt
  | None => set_total_epochs (training_epochs s)
  end.

(** Lines 79-88: one epoch of training, validation and the regular
    checkpoint. *)
Definition train_and_validate (s : session) (w : world) (e : Z) : M unit :=
  call w (STrain e) (Train e) ;;
  if has_val s then
    call w (SValidate e) (Validate ((e + 1) * train_size s)) ;;
    set_performance (validate_result w e) ;;
    perf <- read "performance" performance ;;
    best <- read_best ;;
    let is_best := gt perf best in
    set_best_performance (max perf best) ;;
    call w (SSaveCheckpoint e) (SaveCheckpoint None perf is_best)
  else ret tt.

(** [checkpoints = [cycle_length * cp for cp in range(1, ensemble_size + 1)]] *)
Definition checkpoints (p : ensemble_props) : list Z :=
  map (fun cp => cycle_length p * cp) (range 1 (ensemble_size p + 1)).

(** Lines 92-107: the ensemble member checkpoint. *)
Definition ensemble_checkpoint (s : session) (w : world) (e : Z) : M unit :=
  match ensemble_properties s with
  | Some p =>
      if type_in p ensemble_types then
        if mem (e + 1) (checkpoints p) then
          member <- read "m" m ;;
          perf <- read "performance" performance ;;
          call w (SSaveEnsemble e)
                 (SaveEnsembleCheckpoint perf "ensemble" member) ;;
          set_m (member + 1) ;;
          if type_in p ["deep_ensemble"%string] then
            call w (SReinit e) ReInitialiseModel
          else ret tt
        else ret tt
      else ret tt
  | None => ret tt
  end.

(** Lines 77-107: the body of the [for] loop. *)
Definition epoch_body (s : session) (w : world) (e : Z) : M unit :=
  set_epoch e ;;
  train_and_validate s w e ;;
  ensemble_checkpoint s w e.

(** Lines 60-107: the [try] block. *)
Definition main_try (s : session) (w : world) : M unit :=
  schedule s ;;
  total <- read "total_epochs" total_epochs ;;
  for_each (epoch_body s w) (range (start_epoch s) total).

Definition user_abort : event :=
  SaveCheckpoint (Some "user_abort.pth.tar"%string) (-1 # 1) false.

Definition close_summary (w : world) (name : string) : M unit :=
  call w (SExport name) (ExportScalarsToJson name) ;;
  call w (SClose name) (Close name).

(** Lines 109-118: the [finally] block. *)
Definition main_finally (s : session) (w : world) : M unit :=
  e <- read "epoch" epoch ;;
  total <- read "total_epochs" total_epochs ;;
  (if negb (e + 1 =? total) then call w SAbortSave user_abort else ret tt) ;;
  for_each (close_summary w) (summaries s).

(** Lines 59-118: the guarded training loop, which is [main] from the
    point where control reaches the [try]. *)
Definition main (s : session) (w : world) : M unit :=
  try_finally (main_try s w) (main_finally s w).

(** Running from the state in which control reaches the [try]. *)
Definition run_try (s : session) (w : world) : locals * (exn + unit) :=
  main_try s w (initial s).

Definition run (s : session) (w : world) : locals * (exn + unit) :=
  main s w (initial s).

(** Projections of a trace. *)
Definition events (st : locals) : list event := map snd (trace st).

Definition trained (st : locals) : list Z :=
  flat_map (fun x => match snd x with Train e => [e] | _ => [] end) (trace st).

(** *** Vocabulary of the statements *)

(** The locals when control reaches the [for] statement. *)
Definition entering (s : session) (T : Z) (member : option Z) : locals :=
  {| epoch := None; total_epochs := Some T; m := member; performance := None;
     best_performance := session_best_performance s; trace := [] |}.

(** The calls that flush and close the writers [names], in order. *)
Definition closing (ep : option Z) (names : list string)
  : list (option Z * event) :=
  flat_map (fun n => [(ep, ExportScalarsToJson n); (ep, Close n)]) names.

(** The calls the [finally] block can make. *)
Definition cleanup_event (ev : event) : Prop :=
  match ev with
  | SaveCheckpoint (Some _) _ _ | ExportScalarsToJson _ | Close _ => True
  | _ => False
  end.

Definition member_checkpoint (ev : event) : Prop :=
  match ev with SaveEnsembleCheckpoint _ _ _ => True | _ => False end.

(** A logged re-initialisation happened in a deep ensemble, in an epoch
    [e] with [e + 1] one of the first [ensemble_size] multiples of
    [cycle_length]. *)
Definition reinit_ok (s : session) (x : option Z * event) : Prop :=
  snd x = ReInitialiseModel ->
  exists p e cp,
    ensemble_properties s = Some p /\
    ensemble_type p = Some "deep_ensemble"%string /\
    fst x = Some e /\ 1 <= cp <= ensemble_size p /\
    e + 1 = cycle_length p * cp.

End Main.

(** ** The metric pipeline of [validate] *)

Module Validate.

Import Py.

Definition row : Type := list Q.
Definition array : Type := list row.

(** One batch of the loader: the sample IDs, the activated outputs
    [sigmoid(model(input))] and the raw targets, one row per sample. *)
Record batch : Type := {
  ID : list string;
  pred : array;
  target : array
}.

(** Results that may raise. *)
Definition result (A : Type) : Type := (exn + A)%type.

Definition and_then {A B} (r : result A) (k : A -> result B) : result B :=
  match r with
  | inl e => inl e
  | inr a => k a
  end.

Notation "x <-- r ;;; k" := (and_then r (fun x => k))
  (at level 61, r at next level, right associativity).

(** *** Lines 204-232: storing the batches *)

(** [np.zeros(shape=(n_rows, n_cols))] *)
Definition zeros (n_rows n_cols : nat) : array :=
  repeat (repeat 0%Q n_cols) n_rows.

(** One row of a value assigned to rows of [n_cols] columns: taken as it
    is, or, when it is a single entry, repeated along the row; a row of
    any other width is a [ValueError]. *)
Definition fit_row (n_cols : nat) (r : row) : result row :=
  if (List.length r =? n_cols)%nat then inr r
  else if (List.length r =? 1)%nat then inr (repeat (hd 0%Q r) n_cols)
  else inl ValueError.

Fixpoint fit_rows (n_cols : nat) (rows : array) : result array :=
  match rows with
  | [] => inr []
  | r :: rest =>
      r' <-- fit_row n_cols r ;;;
      rest' <-- fit_rows n_cols rest ;;;
      inr (r' :: rest')
  end.

(** [arr[a:b, :] = rows] for [a <= b], on an array of [n_cols] columns:
    the slice is clipped to the array; the value is broadcast to the
    slice, so its rows must be as many as the slice has, or a single one,
    which is repeated, and as wide as the array, or a single entry, which
    is repeated; anything else is a [ValueError].  The value is a
    two-dimensional array, whose rows have one width: the width is
    checked row by row, and a value without rows carries none. *)
Definition assign_rows (n_cols a b : nat) (rows : array) (arr : array)
  : result array :=
  let lo := Nat.min a (List.length arr) in
  let hi := Nat.min b (List.length arr) in
  let k := (hi - lo)%nat in
  fitted <-- fit_rows n_cols rows ;;;
  if (List.length rows =? k)%nat then
    inr (firstn lo arr ++ fitted ++ skipn hi arr)
  else if (List.length rows =? 1)%nat then
    inr (firstn lo arr ++ repeat (hd [] fitted) k ++ skipn hi arr)
  else inl ValueError.

(** [target_tasks / 2 + 0.5] *)
Definition rescale (t : Q) : Q := (t / 2 + (1 # 2))%Q.

Record stored : Type := {
  predictions : array;
  targets : array;
  sample_keys : list string
}.

(** The body of the batch loop, for the batches from index [i] on, with
    arrays of [n_tasks] columns. *)
Fixpoint store (batchsize n_tasks i : nat) (loader : list batch) (acc : stored)
  : result stored :=
  match loader with
  | [] => inr acc
  | b :: rest =>
      let keys := sample_keys acc ++ ID b in
      ps <-- assign_rows n_tasks (i * batchsize) ((i + 1) * batchsize)
                         (pred b) (predictions acc) ;;;
      ts <-- assign_rows n_tasks (i * batchsize) ((i + 1) * batchsize)
                         (map (map rescale) (target b)) (targets acc) ;;;
      store batchsize n_tasks (S i) rest
            {| predictions := ps; targets := ts; sample_keys := keys |}
  end.

Definition store_all (loader : list batch) (batchsize n_samples n_tasks : nat)
  : result stored :=
  store batchsize n_tasks 0 loader
        {| predictions := zeros n_samples n_tasks;
           targets := zeros n_samples n_tasks;
           sample_keys := [] |}.

(** *** Lines 250-258: grouping the views of a sample *)

(** [s.split(sep)] for a one-character separator *)
Fixpoint split (sep : ascii) (s : string) : list string :=
  match s with
  | EmptyString => [EmptyString]
  | String c s' =>
      if Ascii.eqb c sep then EmptyString :: split sep s'
      else match split sep s' with
           | [] => [String c EmptyString]
           | t :: ts => String c t :: ts
           end
  end.

(** [sep.join(l)] *)
Fixpoint join (sep : string) (l : list string) : string :=
  match l with
  | [] => EmptyString
  | t :: ts =>
      match ts with
      | [] => t
      | _ :: _ => (t ++ sep ++ join sep ts)%string
      end
  end.

Definition dash : ascii := "-"%char.

(** [lambda key: "-".join(key.split("-")[0:2])] *)
Definition group_key (key : string) : string :=
  join (String dash EmptyString) (firstn 2 (split dash key)).

Definition frame : Type := list (string * row).
Definition group : Type := (string * list row)%type.

(** [pandas.DataFrame(data=data, index=index)] *)
Definition DataFrame (data : array) (index : list string) : result frame :=
  if (List.length data =? List.length index)%nat then inr (combine index data)
  else inl ValueError.

(** Strings are compared as Python compares them, character by
    character. *)
Definition key_compare : string -> string -> comparison :=
  OrdersEx.String_as_OT.compare.

(** One row joins the group of its key; groups are kept in key order and
    rows in the order they arrive. *)
Fixpoint add_row (k : string) (r : row) (gs : list group) : list group :=
  match gs with
  | [] => [(k, [r])]
  | (k', rs) :: gs' =>
      match key_compare k k' with
      | Eq => (k', rs ++ [r]) :: gs'
      | Lt => (k, [r]) :: gs
      | Gt => (k', rs) :: add_row k r gs'
      end
  end.

(** [df.groupby(by=key_of)] *)
Definition groupby (key_of : string -> string) (df : frame) : list group :=
  fold_left (fun gs x => add_row (key_of (fst x)) (snd x) gs) df [].

Definition column (j : nat) (a : array) : list Q :=
  map (fun r => nth j r 0%Q) a.

Definition total (l : list Q) : Q := fold_right Qplus 0%Q l.

Definition average (l : list Q) : Q :=
  (total l / inject_Z (Z.of_nat (List.length l)))%Q.

(** [.mean()] of a grouped frame with [n_cols] columns *)
Definition mean (n_cols : nat) (gs : list group) : frame :=
  map (fun g => (fst g, map (fun j => average (column j (snd g))) (seq 0 n_cols)))
      gs.

(** [.first()] of a grouped frame *)
Definition first (gs : list group) : frame :=
  map (fun g => (fst g, hd [] (snd g))) gs.

Fixpoint insert_by_key (x : string * row) (f : frame) : frame :=
  match f with
  | [] => [x]
  | y :: f' =>
      match key_compare (fst x) (fst y) with
      | Gt => y :: insert_by_key x f'
      | _ => x :: f
      end
  end.

(** [.sort_index(inplace=False)] *)
Definition sort_index (f : frame) : frame := fold_right insert_by_key [] f.

(** [df.groupby(by=group_key).mean().sort_index(inplace=False)] *)
Definition grouped_predictions (n_cols : nat) (df : frame) : frame :=
  sort_index (mean n_cols (groupby group_key df)).

(** [df.groupby(by=group_key).first().sort_index(inplace=False)] *)
Definition grouped_targets (df : frame) : frame :=
  sort_index (first (groupby group_key df)).

(** *** Lines 264-277: the per-class AUC *)

(** [np.any(col == v)] *)
Definition any_eq (v : Q) (col : list Q) : bool :=
  existsb (fun x => Qeq_bool x v) col.

(** [list(np.where(col == v)[0])] *)
Definition where_eq (v : Q) (col : list Q) : list nat :=
  filter (fun j => Qeq_bool (nth j col 0%Q) v) (seq 0 (List.length col)).

(** [col[samples]] *)
Definition take (col : list Q) (samples : list nat) : list Q :=
  map (fun j => nth j col 0%Q) samples.

(** [np.where(t == 0)[0]] followed by [np.where(t == 1)[0]] *)
Definition samples_of (t : list Q) : list nat :=
  where_eq 0%Q t ++ where_eq 1%Q t.

(** [float(np.mean(l))]; [None] is the [nan] of an empty list *)
Definition np_mean (l : list Q) : option Q :=
  match l with
  | [] => None
  | _ :: _ => Some (average l)
  end.

Section WithScore.

(** [sklearn.metrics.roc_auc_score(y_true, y_score)] *)
Variable roc_auc_score : list Q -> list Q -> result Q.

(** The body of the loop over the classes: the [try] with its
    [except ValueError]. *)
Definition class_auc (targets predictions : array) (i : nat) : result Q :=
  let t := column i targets in
  let p := column i predictions in
  let attempt :=
    if any_eq 0%Q t && any_eq 1%Q t then
      let samples := samples_of t in
      roc_auc_score (take t samples) (take p samples)
    else inr (1 # 2)%Q in
  match attempt with
  | inl ValueError => inr (1 # 2)%Q
  | inl e => inl e
  | inr v => inr v
  end.

Fixpoint class_aucs_loop (targets predictions : array) (tasks : list nat)
  (class_aucs : list Q) : result (list Q) :=
  match tasks with
  | [] => inr class_aucs
  | i :: rest =>
      v <-- class_auc targets predictions i ;;;
      class_aucs_loop targets predictions rest (class_aucs ++ [v])
  end.

Definition class_aucs (n_tasks : nat) (targets predictions : array)
  : result (list Q) :=
  class_aucs_loop targets predictions (seq 0 n_tasks) [].

(** [validate], from the batches the loader yields to the returned mean
    AUC.  Timing, printing, the summary scalars and the dump of the
    arrays do not enter the result. *)
Definition validate (loader : list batch) (batchsize n_samples n_tasks : nat)
  : result (option Q) :=
  st <-- store_all loader batchsize n_samples n_tasks ;;;
  dfp <-- DataFrame (predictions st) (sample_keys st) ;;;
  let predictions' := map snd (grouped_predictions n_tasks dfp) in
  dft <-- DataFrame (targets st) (sample_keys st) ;;;
  let targets' := map snd (grouped_targets dft) in
  aucs <-- class_aucs n_tasks targets' predictions' ;;;
  inr (np_mean aucs).

End WithScore.

(** The area under the ROC curve of binary labels as the share of
    (positive, negative) pairs ranked correctly, ties counting one half;
    a [ValueError] when one of the classes is missing.  It stands for
    scikit-learn's function where a concrete one is needed. *)
Definition pair_score (p n : Q) : Q :=
  if gt p n then 1%Q else if Qeq_bool p n then (1 # 2)%Q else 0%Q.

Definition scores_of (label : Q) (y_true y_score : list Q) : list Q :=
  map snd (filter (fun x => Qeq_bool (fst x) label) (combine y_true y_score)).

Definition pairwise_auc (y_true y_score : list Q) : result Q :=
  let pos := scores_of 1%Q y_true y_score in
  let neg := scores_of 0%Q y_true y_score in
  match pos, neg with
  | [], _ => inl ValueError
  | _, [] => inl ValueError
  | _, _ =>
      inr (Qred (total (flat_map (fun p => map (pair_score p) neg) pos)
                 / inject_Z (Z.of_nat (List.length pos * List.length neg))))
  end.

(** *** Vocabulary of the statements *)

Local Open Scope nat_scope.

(** The order of the keys. *)
Definition key_lt : string -> string -> Prop := OrdersEx.String_as_OT.lt.

Definition keys_sorted (gs : list group) : Prop :=
  StronglySorted key_lt (map fst gs).

(** The rows of a frame whose index maps to [k], in the order of the
    frame. *)
Definition rows_of (key_of : string -> string) (k : string) (df : frame)
  : list row :=
  map snd (filter (fun x => String.eqb (key_of (fst x)) k) df).

(** The rows of the group of [k]. *)
Fixpoint rows_at (k : string) (gs : list group) : list row :=
  match gs with
  | [] => []
  | (k', rs) :: gs' => if String.eqb k' k then rs else rows_at k gs'
  end.

(** Strings without a dash. *)
Fixpoint dash_free (s : string) : Prop :=
  match s with
  | EmptyString => True
  | String c s' => c <> dash /\ dash_free s'
  end.

(** Batches whose outputs and targets have [n_tasks] columns. *)
Definition shaped (n_tasks : nat) (loader : list batch) : Prop :=
  Forall (fun b => Forall (fun r => List.length r = n_tasks) (pred b) /\
                   Forall (fun r => List.length r = n_tasks) (target b))
         loader.

(** What a loader over [remaining] samples yields with [drop_last=False]:
    full batches, then the rest. *)
Fixpoint chunked (batchsize remaining : nat) (loader : list batch) : Prop :=
  match loader with
  | [] => remaining = 0
  | b :: rest =>
      0 < remaining /\
      List.length (pred b) = Nat.min batchsize remaining /\
      List.length (target b) = List.length (pred b) /\
      List.length (ID b) = List.length (pred b) /\
      chunked batchsize (remaining - Nat.min batchsize remaining) rest
  end.

End Validate.

(** ** Concrete sessions, worlds and loaders *)

Module Examples.

Import Py Main.

(** A world in which no call raises and epoch [e] validates at [e / 10]. *)
Definition quiet : world :=
  {| raises := fun _ => None;
     validate_result := fun e => (inject_Z e / 10)%Q |}.

(** A world in which [train] is interrupted in epoch [e0]. *)
Definition interrupted (e0 : Z) : world :=
  {| raises := fun x => match x with
                        | STrain e => if e =? e0 then Some KeyboardInterrupt
                                      else None
                        | _ => None
                        end;
     validate_result := fun _ => (1 # 2)%Q |}.

Definition two_writers : list string := ["train"%string; "val"%string].

(** A plain run of [n] epochs with a validation split. *)
Definition plain (n : Z) : session :=
  {| ensemble_properties := None; has_val := true; start_epoch := 0;
     session_best_performance := 0%Q; training_epochs := n;
     train_size := 100; summaries := two_writers |}.

Definition props (t : string) : ensemble_props :=
  {| ensemble_type := Some t; ensemble_size := 2; cycle_length := 2 |}.

(** Two members of two epochs each, with a validation split. *)
Definition ensemble (t : string) : session :=
  {| ensemble_properties := Some (props t); has_val := true; start_epoch := 0;
     session_best_performance := 0%Q; training_epochs := 10;
     train_size := 100; summaries := two_writers |}.

(** The same without a validation split. *)
Definition ensemble_without_val (t : string) : session :=
  {| ensemble_properties := Some (props t); has_val := false; start_epoch := 0;
     session_best_performance := 0%Q; training_epochs := 10;
     train_size := 100; summaries := two_writers |}.

(** A loader of three views in batches of two, with two classes. *)
Definition views : list Validate.batch :=
  [ {| Validate.ID := ["p1-w1-v1"%string; "p1-w1-v2"%string];
       Validate.pred := [[0.9; 0.2]; [0.7; 0.4]]%Q;
       Validate.target := [[1; -1]; [1; -1]]%Q |};
    {| Validate.ID := ["p1-w2-v1"%string];
       Validate.pred := [[0.1; 0.6]]%Q;
       Validate.target := [[-1; 0]]%Q |} ].

(** The stored predictions of [views], indexed by sample. *)
Definition view_predictions : Validate.frame :=
  [("p1-w1-v1"%string, [0.9; 0.2]); ("p1-w1-v2"%string, [0.7; 0.4]);
   ("p1-w2-v1"%string, [0.1; 0.6])]%Q.

(** The stored targets of [views], indexed by sample. *)
Definition view_targets : Validate.frame :=
  [("p1-w1-v1"%string, [1; 0]); ("p1-w1-v2"%string, [1; 0]);
   ("p1-w2-v1"%string, [0; 1 # 2])]%Q.

(** Targets and predictions of two wells, two classes. *)
Definition well_targets : Validate.array := [[1; 0]; [0; 1 # 2]]%Q.
Definition well_predictions : Validate.array := [[0.8; 0.3]; [0.1; 0.6]]%Q.

(** The same predictions but for the well whose second target is
    neither 0 nor 1. *)
Definition other_predictions : Validate.array := [[0.8; 0.3]; [0.1; 0.9]]%Q.

End Examples.

(** ** What a run is observed to do *)

Module Observed.

Import Py Main.

Local Open Scope Z_scope.

(** The member indices of the ensemble checkpoints a run saved, in order. *)
Definition saved_members (st : locals) : list Z :=
  flat_map (fun x => match snd x with
                     | SaveEnsembleCheckpoint _ _ k => [k]
                     | _ => []
                     end) (trace st).

(** The performances of the regular checkpoints, in order. *)
Definition checkpointed (st : locals) : list Q :=
  flat_map (fun x => match snd x with
                     | SaveCheckpoint None p _ => [p]
                     | _ => []
                     end) (trace st).

(** The performances of the regular checkpoints flagged [is_best]. *)
Definition flagged_best (st : locals) : list Q :=
  flat_map (fun x => match snd x with
                     | SaveCheckpoint None p true => [p]
                     | _ => []
                     end) (trace st).

(** Calls other than the save of an ensemble member. *)
Definition plain_event (x : option Z * event) : Prop :=
  ~ member_checkpoint (snd x).

(** The members saved so far are [m0], [m0 + 1], ... up to the index [m]
    will give next. *)
Definition members_in_sequence (m0 : Z) (st : locals) : Prop :=
  exists k, m st = Some k /\ m0 <= k /\ saved_members st = range m0 k.

(** Every member saved so far closed its own cycle. *)
Definition member_closes_cycle (p : ensemble_props) (x : option Z * event)
  : Prop :=
  match snd x with
  | SaveEnsembleCheckpoint _ name k =>
      name = "ensemble"%string /\ 0 <= k < ensemble_size p /\
      exists e, fst x = Some e /\ e + 1 = cycle_length p * (k + 1)
  | _ => True
  end.

(** Calls other than a regular checkpoint. *)
Definition not_regular (x : option Z * event) : Prop :=
  match snd x with
  | SaveCheckpoint None _ _ => False
  | _ => True
  end.

(** The regular checkpoints never exceed the best performance, and those
    flagged best rise strictly from the session's best. *)
Definition best_tracked (b0 : Q) (st : locals) : Prop :=
  (b0 <= best_performance st)%Q /\
  Forall (fun p => (p <= best_performance st)%Q) (checkpointed st) /\
  Forall (fun p => (p <= best_performance st)%Q) (flagged_best st) /\
  StronglySorted Qlt (b0 :: flagged_best st).

End Observed.

(** ** More concrete inputs *)

Module MoreExamples.

Import Py Main Examples.

(** A plain run of three epochs, resumed after the last one. *)
Definition finished : session :=
  {| ensemble_properties := None; has_val := true; start_epoch := 3;
     session_best_performance := 0%Q; training_epochs := 3;
     train_size := 100; summaries := two_writers |}.

(** A deep ensemble whose cycle length is zero. *)
Definition zero_cycle : session :=
  {| ensemble_properties :=
       Some {| ensemble_type := Some "deep_ensemble"%string;
               ensemble_size := 2; cycle_length := 0 |};
     has_val := true; start_epoch := 0;
     session_best_performance := 0%Q; training_epochs := 10;
     train_size := 100; summaries := two_writers |}.

(** A world in which [train] is interrupted in epoch 1 and the abort
    checkpoint cannot be written. *)
Definition disk_full : world :=
  {| raises := fun x => match x with
                        | STrain e => if e =? 1 then Some KeyboardInterrupt
                                      else None
                        | SAbortSave => Some RuntimeError
                        | _ => None
                        end;
     validate_result := fun _ => (1 # 2)%Q |}.

(** The samples of [views] in a single batch of three. *)
Definition one_batch : list Validate.batch :=
  [ {| Validate.ID := ["p1-w1-v1"%string; "p1-w1-v2"%string;
                       "p1-w2-v1"%string];
       Validate.pred := [[0.9; 0.2]; [0.7; 0.4]; [0.1; 0.6]]%Q;
       Validate.target := [[1; -1]; [1; -1]; [-1; 0]]%Q |} ].

(** Scores that stand for a [roc_auc_score] that fails otherwise than
    with [ValueError], and for one that always answers 0.75. *)
Definition failing_score (y_true y_score : list Q) : Validate.result Q :=
  inl RuntimeError.

Definition constant_score (y_true y_score : list Q) : Validate.result Q :=
  inr (3 # 4)%Q.

(** Targets of two wells in which no class has both labels. *)
Definition single_class_targets : Validate.array := [[1; 0]; [1; 1 # 2]]%Q.

(** A score that stands for a [roc_auc_score] that refuses its input with
    a [ValueError]. *)
Definition refusing_score (y_true y_score : list Q) : Validate.result Q :=
  inl ValueError.

(** Targets and predictions of three wells; the first class of the third
    well is unlabelled, its stored target being 0.5. *)
Definition mixed_targets : Validate.array :=
  [[1; 0]; [0; 1 # 2]; [1 # 2; 1]]%Q.
Definition mixed_predictions : Validate.array :=
  [[0.8; 0.3]; [0.1; 0.6]; [0.05; 0.9]]%Q.

(** The same predictions but for the first class of the third well. *)
Definition moved_predictions : Validate.array :=
  [[0.8; 0.3]; [0.1; 0.6]; [0.95; 0.9]]%Q.

End MoreExamples.

(** ** Properties of the epoch loop *)

Module MainSpec.

Import Py Main Examples.

(** *** Ranges, checkpoints and comparisons *)

Lemma range_In a b e : In e (range a b) <-> a <= e < b.
Proof.
  unfold range. rewrite in_map_iff. split.
  - intros [i [<- Hi]]. apply in_seq in Hi. lia.
  - intros H. exists (Z.to_nat (e - a)). split; [lia|]. apply in_seq. lia.
Qed.

Lemma mem_In x l : mem x l = true <-> In x l.
Proof.
  unfold mem. rewrite existsb_exists. split.
  - intros [y [Hy E]]. apply Z.eqb_eq in E. now subst.
  - intros H. exists x. split; [assumption | apply Z.eqb_refl].
Qed.

Lemma mem_checkpoints p x :
  mem x (checkpoints p) = true <->
  exists cp, 1 <= cp <= ensemble_size p /\ x = cycle_length p * cp.
Proof.
  rewrite mem_In. unfold checkpoints. rewrite in_map_iff. split.
  - intros [cp [<- H]]. apply range_In in H. exists cp. split; [lia | reflexivity].
  - intros [cp [H ->]]. exists cp. split; [reflexivity | apply range_In; lia].
Qed.

Lemma gt_lt a b : gt a b = true <-> (b < a)%Q.
Proof.
  unfold gt. rewrite negb_true_iff. split.
  - intros H. apply Qnot_le_lt. intros L. apply Qle_bool_iff in L. congruence.
  - intros H. destruct (Qle_bool a b) eqn:E; [|reflexivity].
    apply Qle_bool_iff in E. exfalso. exact (Qlt_not_le _ _ H E).
Qed.

Lemma max_upper a b : (b <= max a b)%Q.
Proof.
  unfold max. destruct (gt b a) eqn:E.
  - apply Qle_refl.
  - destruct (Qlt_le_dec a b) as [L|L]; [|assumption].
    apply gt_lt in L. congruence.
Qed.

(** *** The loop and its body *)

(** Case analysis along the control flow of one epoch. *)
Ltac run_body :=
  unfold epoch_body, train_and_validate, ensemble_checkpoint, bind, call, read,
    read_best, set_epoch, set_performance, set_best_performance, set_m, ret, log;
  repeat (cbn [fst snd epoch total_epochs m performance best_performance trace];
          match goal with
          | |- context [match ?x with _ => _ end] =>
              lazymatch x with
              | context [match _ with _ => _ end] => fail
              | _ => destruct x eqn:?
              end
          end).

Lemma for_each_invariant {A} (P : locals -> Prop) (body : A -> M unit) l :
  (forall x st, In x l -> P st -> P (fst (body x st))) ->
  forall st, P st -> P (fst (for_each body l st)).
Proof.
  induction l as [|x l IH]; intros Hb st Hst; simpl.
  - assumption.
  - unfold bind. specialize (Hb x st (or_introl eq_refl) Hst) as Hx.
    destruct (body x st) as [st' [e|u]]; simpl in *.
    + assumption.
    + apply IH; [|assumption]. intros y st0 Hy. apply Hb. now right.
Qed.

Lemma body_best s w e st :
  (best_performance st <= best_performance (fst (epoch_body s w e st)))%Q.
Proof.
  run_body; cbn [fst best_performance]; try apply Qle_refl; try apply max_upper.
Qed.

Lemma run_try_plain s w :
  ensemble_properties s = None ->
  run_try s w =
  for_each (epoch_body s w) (range (start_epoch s) (training_epochs s))
           (entering s (training_epochs s) None).
Proof.
  intros H. unfold run_try, main_try, schedule, bind. rewrite H. reflexivity.
Qed.

Lemma run_try_ensemble s w p :
  ensemble_properties s = Some p -> type_in p ensemble_types = true ->
  cycle_length p <> 0 ->
  run_try s w =
  for_each (epoch_body s w)
           (range (start_epoch s) (ensemble_size p * cycle_length p))
           (entering s (ensemble_size p * cycle_length p)
                     (Some (Z.quot (start_epoch s) (cycle_length p)))).
Proof.
  intros H Ht Hc. unfold run_try, main_try, schedule, bind. rewrite H, Ht.
  apply Z.eqb_neq in Hc. cbn. rewrite Hc. reflexivity.
Qed.

Lemma run_try_zero_cycle s w p :
  ensemble_properties s = Some p -> type_in p ensemble_types = true ->
  cycle_length p = 0 ->
  run_try s w = (entering s (ensemble_size p * cycle_length p) None,
                 inl ZeroDivisionError).
Proof.
  intros H Ht Hc. unfold run_try, main_try, schedule, bind. rewrite H, Ht.
  apply Z.eqb_eq in Hc. cbn. rewrite Hc. reflexivity.
Qed.

Lemma run_try_unrecognised s w p :
  ensemble_properties s = Some p -> type_in p ensemble_types = false ->
  run_try s w = (initial s, inl (NameError "total_epochs")).
Proof.
  intros H Ht. unfold run_try, main_try, schedule, bind. rewrite H, Ht.
  reflexivity.
Qed.

(** The four ways control leaves the schedule. *)
Lemma run_try_cases s w :
  (exists T member,
      run_try s w = for_each (epoch_body s w) (range (start_epoch s) T)
                             (entering s T member)) \/
  (exists st x, run_try s w = (st, inl x) /\ epoch st = None
                /\ performance st = None /\ trace st = []
                /\ best_performance st = session_best_performance s).
Proof.
  destruct (ensemble_properties s) as [p|] eqn:H.
  - destruct (type_in p ensemble_types) eqn:Ht.
    + destruct (Z.eq_dec (cycle_length p) 0) as [Hc|Hc].
      * right. rewrite (run_try_zero_cycle s w p H Ht Hc). eauto 10.
      * left. rewrite (run_try_ensemble s w p H Ht Hc). eauto.
    + right. rewrite (run_try_unrecognised s w p H Ht). eauto 10.
  - left. rewrite (run_try_plain s w H). eauto.
Qed.

Lemma body_epoch s w e st : epoch (fst (epoch_body s w e st)) = Some e.
Proof. run_body; reflexivity. Qed.

Lemma body_total s w e st :
  total_epochs (fst (epoch_body s w e st)) = total_epochs st.
Proof. run_body; reflexivity. Qed.

Lemma loop_total s w l st :
  total_epochs (fst (for_each (epoch_body s w) l st)) = total_epochs st.
Proof.
  apply (for_each_invariant (fun st' => total_epochs st' = total_epochs st));
    [|reflexivity].
  intros x st' _ H. now rewrite body_total.
Qed.

Lemma loop_epoch s w l st e :
  epoch (fst (for_each (epoch_body s w) l st)) = Some e ->
  epoch st = Some e \/ In e l.
Proof.
  revert st. induction l as [|x l IH]; intros st; simpl.
  - now left.
  - unfold bind. pose proof (body_epoch s w x st) as Hx.
    destruct (epoch_body s w x st) as [st' [err|u]]; simpl in *.
    + intros H. right. left. congruence.
    + intros H. destruct (IH _ H) as [H'|H']; right; [left; congruence | now right].
Qed.

(** *** The [finally] block *)

Lemma close_summary_run w n st :
  raises w (SExport n) = None -> raises w (SClose n) = None ->
  close_summary w n st = (log (Close n) (log (ExportScalarsToJson n) st), inr tt).
Proof.
  intros He Hc. unfold close_summary, bind, call. rewrite He, Hc. reflexivity.
Qed.

Lemma close_all w names st :
  (forall n, In n names ->
             raises w (SExport n) = None /\ raises w (SClose n) = None) ->
  exists st', for_each (close_summary w) names st = (st', inr tt)
              /\ epoch st' = epoch st
              /\ trace st' = trace st ++ closing (epoch st) names.
Proof.
  revert st. induction names as [|n names IH]; intros st H; simpl.
  - exists st. unfold ret. rewrite app_nil_r. auto.
  - destruct (H n (or_introl eq_refl)) as [He Hc].
    unfold bind. rewrite (close_summary_run w n st He Hc).
    destruct (IH (log (Close n) (log (ExportScalarsToJson n) st))) as [st' [E [Hep Htr]]].
    { intros n' Hn'. apply H. now right. }
    exists st'. rewrite E. split; [reflexivity|]. split.
    + rewrite Hep. reflexivity.
    + rewrite Htr. cbn [log trace epoch]. rewrite <- !app_assoc. reflexivity.
Qed.

Lemma run_try_epoch_total s w st r e :
  run_try s w = (st, r) -> epoch st = Some e ->
  exists T, total_epochs st = Some T /\ start_epoch s <= e < T.
Proof.
  intros Hrun Hep. destruct (run_try_cases s w) as [[T [mm E]]|[st1 [x [E [H1 _]]]]].
  - exists T. rewrite E in Hrun.
    pose proof (loop_total s w (range (start_epoch s) T) (entering s T mm)) as Ht.
    pose proof (loop_epoch s w (range (start_epoch s) T) (entering s T mm) e) as Hl.
    rewrite Hrun in Ht, Hl. cbn [fst] in Ht, Hl. split; [exact Ht|].
    destruct (Hl Hep) as [H|H]; [discriminate H | now apply range_In].
  - rewrite E in Hrun. inversion Hrun; subst. congruence.
Qed.

(** C1 (amended).  An exception [x] raised during the epoch loop leaves
    the [try] block with [epoch] bound to the epoch [e] it was raised in,
    one of [range(start_epoch, total_epochs)].
    Provided the calls of the [finally] block themselves return, [main]
    then re-raises [x] after having logged, in this order: the abort
    checkpoint [user_abort.pth.tar] (performance -1, [is_best] false),
    exactly when [e + 1 <> total_epochs]; and, for every summary writer,
    the export of its scalars to JSON followed by its close. *)
Theorem abort_guard s w st x e :
  run_try s w = (st, inl x) -> epoch st = Some e ->
  raises w SAbortSave = None ->
  (forall n, In n (summaries s) ->
             raises w (SExport n) = None /\ raises w (SClose n) = None) ->
  exists T st',
    total_epochs st = Some T /\ start_epoch s <= e < T /\
    run s w = (st', inl x) /\
    trace st' = trace st
                ++ (if e + 1 =? T then [] else [(Some e, user_abort)])
                ++ closing (Some e) (summaries s).
Proof.
  intros Hrun Hep Habort Hclose.
  destruct (run_try_epoch_total s w st (inl x) e Hrun Hep) as [T [HT Hin]].
  exists T. unfold run, main, try_finally.
  change (main_try s w (initial s)) with (run_try s w). rewrite Hrun.
  unfold main_finally, bind, read. rewrite Hep, HT.
  destruct (e + 1 =? T) eqn:Hlast; cbn [negb].
  - unfold ret. destruct (close_all w (summaries s) st Hclose) as [st' [E [_ Htr]]].
    rewrite E. exists st'. rewrite Htr, Hep. auto.
  - unfold call. rewrite Habort.
    destruct (close_all w (summaries s) (log user_abort st) Hclose)
      as [st' [E [_ Htr]]].
    rewrite E. exists st'. rewrite Htr. cbn [log trace epoch]. rewrite Hep.
    rewrite <- app_assoc. auto.
Qed.

Lemma abort_guard_witness :
  exists T st',
    total_epochs (fst (run_try (plain 3) (interrupted 1))) = Some T /\
    start_epoch (plain 3) <= 1 < T /\
    run (plain 3) (interrupted 1) = (st', inl KeyboardInterrupt) /\
    trace st' = trace (fst (run_try (plain 3) (interrupted 1)))
                ++ (if 1 + 1 =? T then [] else [(Some 1, user_abort)])
                ++ closing (Some 1) (summaries (plain 3)).
Proof.
  apply (abort_guard (plain 3) (interrupted 1)
                     (fst (run_try (plain 3) (interrupted 1)))
                     KeyboardInterrupt 1).
  - reflexivity.
  - reflexivity.
  - reflexivity.
  - intros n _. split; reflexivity.
Defined.

(** C1 as stated fails.  [train] is interrupted in the only epoch of a
    one-epoch run: the interrupt leaves the loop with [epoch = 0], [main]
    re-raises it after flushing and closing both writers, and no abort
    checkpoint is written, since [epoch + 1 = total_epochs]. *)
Lemma no_abort_checkpoint_in_last_epoch :
  snd (run_try (plain 1) (interrupted 0)) = inl KeyboardInterrupt /\
  epoch (fst (run_try (plain 1) (interrupted 0))) = Some 0 /\
  snd (run (plain 1) (interrupted 0)) = inl KeyboardInterrupt /\
  events (fst (run (plain 1) (interrupted 0)))
  = [ExportScalarsToJson "train"; Close "train";
     ExportScalarsToJson "val"; Close "val"] /\
  ~ In user_abort (events (fst (run (plain 1) (interrupted 0)))).
Proof.
  repeat split; try reflexivity.
  vm_compute. intros H. repeat (destruct H as [H|H]; [discriminate H|]).
  exact H.
Qed.

(** *** Invariants of a run *)

(** What holds when control reaches the loop and is kept by every epoch
    holds when the [try] block is left. *)
Lemma run_try_invariant (P : locals -> Prop) s w :
  (forall st, epoch st = None -> performance st = None -> trace st = [] ->
              best_performance st = session_best_performance s -> P st) ->
  (forall e st, P st -> P (fst (epoch_body s w e st))) ->
  P (fst (run_try s w)).
Proof.
  intros Hinit Hbody.
  destruct (run_try_cases s w) as [[T [mm E]]|[st1 [x [E [H1 [H2 [H3 H4]]]]]]];
    rewrite E.
  - apply for_each_invariant; [intros; now apply Hbody|].
    now apply Hinit.
  - now apply Hinit.
Qed.

Lemma finally_trace s w st x :
  In x (trace (fst (main_finally s w st))) ->
  In x (trace st) \/ cleanup_event (snd x).
Proof.
  unfold main_finally, bind, read.
  destruct (epoch st) as [e|]; [|now left].
  destruct (total_epochs st) as [T|]; [|now left].
  assert (Hloop : forall st0,
             (forall y, In y (trace st0) -> In y (trace st) \/ cleanup_event (snd y)) ->
             forall y, In y (trace (fst (for_each (close_summary w) (summaries s) st0))) ->
                       In y (trace st) \/ cleanup_event (snd y)).
  { intros st0 H0.
    apply (for_each_invariant
             (fun st' => forall y, In y (trace st') ->
                                   In y (trace st) \/ cleanup_event (snd y)));
      [|assumption].
    intros n st' _ H' y. unfold close_summary, bind, call.
    destruct (raises w (SExport n)); [apply H'|].
    destruct (raises w (SClose n)); cbn [fst log trace]; rewrite ?in_app_iff;
      simpl; intros Hy; intuition (subst; simpl; auto). }
  destruct (negb (e + 1 =? T)).
  - unfold call. destruct (raises w SAbortSave); [now left|].
    destruct (for_each (close_summary w) (summaries s) (log user_abort st))
      as [st' r] eqn:E.
    assert (H : In x (trace st') -> In x (trace st) \/ cleanup_event (snd x)).
    { replace st' with (fst (for_each (close_summary w) (summaries s) (log user_abort st)))
        by now rewrite E.
      apply Hloop. intros y. cbn [log trace]. rewrite in_app_iff. simpl.
      intros [Hy|[Hy|[]]]; subst; simpl; auto. }
    destruct r; exact H.
  - unfold ret.
    destruct (for_each (close_summary w) (summaries s) st) as [st' r] eqn:E.
    assert (H : In x (trace st') -> In x (trace st) \/ cleanup_event (snd x)).
    { replace st' with (fst (for_each (close_summary w) (summaries s) st))
        by now rewrite E.
      apply Hloop. auto. }
    destruct r; exact H.
Qed.

Lemma run_fst s w : fst (run s w) = fst (main_finally s w (fst (run_try s w))).
Proof.
  unfold run, main, try_finally, run_try.
  destruct (main_try s w (initial s)) as [st1 r]. cbn [fst].
  destruct (main_finally s w st1) as [st2 [e|u]]; reflexivity.
Qed.

(** A property of logged calls that every epoch keeps and that the calls
    of the [finally] block have holds of the whole trace. *)
Lemma run_trace (Q : option Z * event -> Prop) s w :
  Forall Q (trace (fst (run_try s w))) ->
  (forall x, cleanup_event (snd x) -> Q x) ->
  Forall Q (trace (fst (run s w))).
Proof.
  intros Htry Hc. rewrite run_fst. apply Forall_forall. intros x Hx.
  destruct (finally_trace _ _ _ _ Hx) as [H|H].
  - rewrite Forall_forall in Htry. now apply Htry.
  - now apply Hc.
Qed.

Lemma deep_type p :
  type_in p ["deep_ensemble"%string] = true ->
  ensemble_type p = Some "deep_ensemble"%string.
Proof.
  unfold type_in. destruct (ensemble_type p) as [t|]; [|discriminate].
  simpl. rewrite orb_false_r. intros H. apply String.eqb_eq in H. now subst.
Qed.

(** *** The epochs trained *)

Lemma trained_app st ev :
  trained (log ev st) =
  (trained st ++ match ev with Train e => [e] | _ => [] end)%list.
Proof.
  unfold trained, log. cbn [trace]. rewrite flat_map_app. simpl.
  now rewrite app_nil_r.
Qed.

Lemma body_trained s w e st :
  (trained (fst (epoch_body s w e st)) = trained st ++ [e])%list \/
  (trained (fst (epoch_body s w e st)) = trained st /\
   exists x, snd (epoch_body s w e st) = inl x).
Proof.
  unfold trained.
  run_body; cbn [fst snd trace]; rewrite ?flat_map_app; simpl;
    rewrite ?app_nil_r; eauto.
Qed.

Lemma loop_trained s w l st :
  exists done rest,
    l = (done ++ rest)%list /\
    trained (fst (for_each (epoch_body s w) l st)) = (trained st ++ done)%list /\
    (snd (for_each (epoch_body s w) l st) = inr tt -> rest = []).
Proof.
  revert st. induction l as [|e l IH]; intros st; simpl.
  - exists [], []. simpl. rewrite app_nil_r. repeat split; reflexivity.
  - unfold bind. pose proof (body_trained s w e st) as Hb.
    destruct (epoch_body s w e st) as [st' [x|u]] eqn:E; cbn [fst snd] in *.
    + destruct Hb as [Hb|[Hb _]].
      * exists [e], l. split; [reflexivity|]. split; [assumption|discriminate].
      * exists [], (e :: l). rewrite app_nil_r. split; [reflexivity|].
        split; [assumption|discriminate].
    + destruct Hb as [Hb|[_ [x Hx]]]; [|discriminate].
      destruct (IH st') as [done [rest [Hl [Ht Hn]]]].
      exists (e :: done), rest. split; [simpl; congruence|].
      split; [|assumption]. rewrite Ht, Hb. now rewrite <- app_assoc.
Qed.

(** C3.  With an empty [ensemble_properties] the loop bound [T] is
    [config.training.epochs]; with one of the two ensemble types it is
    [ensemble_size * cycle_length].  In both cases [total_epochs] is bound
    to [T], the epochs trained are an initial segment of
    [range(start_epoch, T)], the whole of it when the [try] block ends
    without an exception, and that range holds the epochs [e] with
    [start_epoch <= e < T]. *)
Theorem loop_range s w T :
  (ensemble_properties s = None /\ T = training_epochs s) \/
  (exists p, ensemble_properties s = Some p /\
             type_in p ensemble_types = true /\
             T = ensemble_size p * cycle_length p) ->
  total_epochs (fst (run_try s w)) = Some T /\
  (exists rest,
      range (start_epoch s) T = (trained (fst (run_try s w)) ++ rest)%list) /\
  (snd (run_try s w) = inr tt ->
   trained (fst (run_try s w)) = range (start_epoch s) T) /\
  (forall e, In e (range (start_epoch s) T) <-> start_epoch s <= e < T).
Proof.
  intros H.
  assert (Hloop : forall mm,
             run_try s w = for_each (epoch_body s w) (range (start_epoch s) T)
                                    (entering s T mm) ->
             total_epochs (fst (run_try s w)) = Some T /\
             (exists rest,
                 range (start_epoch s) T
                 = (trained (fst (run_try s w)) ++ rest)%list) /\
             (snd (run_try s w) = inr tt ->
              trained (fst (run_try s w)) = range (start_epoch s) T)).
  { intros mm E. rewrite E. split; [now rewrite loop_total|].
    destruct (loop_trained s w (range (start_epoch s) T) (entering s T mm))
      as [done [rest [Hl [Ht Hn]]]].
    rewrite Ht. cbn. split.
    - exists rest. exact Hl.
    - intros Hr. rewrite (Hn Hr), app_nil_r in Hl. now symmetry. }
  split; [|split; [|split]]; try (intros e; apply range_In).
  all: destruct H as [[Hp ->]|[p [Hp [Ht ->]]]].
  all: try (apply (Hloop None); now apply run_try_plain).
  all: destruct (Z.eq_dec (cycle_length p) 0) as [Hc|Hc].
  all: try (apply (Hloop (Some (Z.quot (start_epoch s) (cycle_length p))));
            now apply run_try_ensemble).
  all: rewrite (run_try_zero_cycle s w p Hp Ht Hc); cbn [fst snd].
  - reflexivity.
  - exists (range (start_epoch s) (ensemble_size p * cycle_length p)).
    reflexivity.
  - discriminate.
Qed.

Lemma loop_range_witness :
  total_epochs (fst (run_try (ensemble "snapshot_ensemble") quiet)) = Some 4 /\
  trained (fst (run_try (ensemble "snapshot_ensemble") quiet)) = [0; 1; 2; 3].
Proof.
  destruct (loop_range (ensemble "snapshot_ensemble") quiet 4) as [H1 [_ [H3 _]]].
  - right. exists (props "snapshot_ensemble"). repeat split.
  - split; [exact H1 | exact (H3 eq_refl)].
Defined.

(** C9.  With a non-empty [ensemble_properties] whose type is neither
    [deep_ensemble] nor [snapshot_ensemble], the [try] block raises
    [NameError] for [total_epochs] with nothing logged and [epoch] unbound,
    and [main] ends with the [NameError] the [finally] block raises for
    [epoch].  Hence [main] returns normally only when
    [ensemble_properties] is empty or names one of the two types. *)
Theorem unrecognised_ensemble_type s w :
  (forall p, ensemble_properties s = Some p ->
             type_in p ensemble_types = false ->
             run_try s w = (initial s, inl (NameError "total_epochs")) /\
             run s w = (initial s, inl (NameError "epoch"))) /\
  (snd (run s w) = inr tt ->
   ensemble_properties s = None \/
   exists p, ensemble_properties s = Some p /\
             type_in p ensemble_types = true).
Proof.
  assert (H : forall p, ensemble_properties s = Some p ->
                        type_in p ensemble_types = false ->
                        run s w = (initial s, inl (NameError "epoch"))).
  { intros p Hp Ht. unfold run, main, try_finally.
    change (main_try s w (initial s)) with (run_try s w).
    rewrite (run_try_unrecognised s w p Hp Ht). reflexivity. }
  split.
  - intros p Hp Ht. split; [exact (run_try_unrecognised s w p Hp Ht) | exact (H p Hp Ht)].
  - intros Hr. destruct (ensemble_properties s) as [p|] eqn:Hp; [|now left].
    right. exists p. split; [reflexivity|].
    destruct (type_in p ensemble_types) eqn:Ht; [reflexivity|].
    rewrite (H p eq_refl Ht) in Hr. discriminate.
Qed.

Lemma unrecognised_ensemble_type_witness :
  (run_try (ensemble "bagging") quiet
   = (initial (ensemble "bagging"), inl (NameError "total_epochs")) /\
   run (ensemble "bagging") quiet
   = (initial (ensemble "bagging"), inl (NameError "epoch"))) /\
  (ensemble_properties (plain 3) = None \/
   exists p, ensemble_properties (plain 3) = Some p /\
             type_in p ensemble_types = true).
Proof.
  split.
  - apply (proj1 (unrecognised_ensemble_type (ensemble "bagging") quiet)
                 (props "bagging")); reflexivity.
  - apply (proj2 (unrecognised_ensemble_type (plain 3) quiet)). reflexivity.
Defined.

(** *** Re-initialisation *)

Lemma body_reinit s w e st :
  Forall (reinit_ok s) (trace st) ->
  Forall (reinit_ok s) (trace (fst (epoch_body s w e st))).
Proof.
  intros H. run_body; cbn [fst trace]; try assumption;
    repeat (apply Forall_app; split); try assumption;
    repeat constructor; unfold reinit_ok; cbn [fst snd]; try discriminate.
  all: intros _;
    match goal with
    | Hp : ensemble_properties _ = Some ?p,
      Hd : type_in ?p ["deep_ensemble"%string] = true,
      Hm : mem (?e1 + 1) (checkpoints ?p) = true |- _ =>
        apply mem_checkpoints in Hm; destruct Hm as [cp [Hcp Hm]];
        exists p, e1, cp;
        split; [exact Hp|]; split; [exact (deep_type p Hd)|];
        split; [reflexivity|]; split; [exact Hcp | exact Hm]
    end.
Qed.

Lemma run_reinit s w : Forall (reinit_ok s) (trace (fst (run s w))).
Proof.
  apply run_trace.
  - apply (run_try_invariant (fun st => Forall (reinit_ok s) (trace st))).
    + intros st _ _ -> _. constructor.
    + intros e st. apply body_reinit.
  - intros [ep ev] Hc He. cbn [snd] in *. subst ev. destruct Hc.
Qed.

(** C7.  Every re-initialisation of the model that a run logs happens
    in a deep ensemble, in an epoch [e] whose [e + 1] is a multiple
    [cycle_length * cp] of the cycle length with [1 <= cp <= ensemble_size];
    a run that is not a deep ensemble (no ensemble, a snapshot ensemble,
    any other type) logs no re-initialisation at all. *)
Theorem reinitialise_only_deep_boundary s w :
  (forall ep, In (ep, ReInitialiseModel) (trace (fst (run s w))) ->
     exists p e cp,
       ensemble_properties s = Some p /\
       ensemble_type p = Some "deep_ensemble"%string /\
       ep = Some e /\ 1 <= cp <= ensemble_size p /\
       e + 1 = cycle_length p * cp) /\
  ((forall p, ensemble_properties s = Some p ->
              ensemble_type p <> Some "deep_ensemble"%string) ->
   ~ In ReInitialiseModel (events (fst (run s w)))).
Proof.
  pose proof (run_reinit s w) as H. rewrite Forall_forall in H. split.
  - intros ep Hin. exact (H _ Hin eq_refl).
  - intros Hnot Hin. unfold events in Hin. apply in_map_iff in Hin.
    destruct Hin as [[ep ev] [Hev Hin]]. cbn [snd] in Hev. subst ev.
    destruct (H _ Hin eq_refl) as [p [e [cp [Hp [Ht _]]]]].
    exact (Hnot p Hp Ht).
Qed.

Lemma reinitialise_only_deep_boundary_witness :
  (exists p e cp,
      ensemble_properties (ensemble "deep_ensemble") = Some p /\
      ensemble_type p = Some "deep_ensemble"%string /\
      Some 1 = Some e /\ 1 <= cp <= ensemble_size p /\
      e + 1 = cycle_length p * cp) /\
  ~ In ReInitialiseModel (events (fst (run (ensemble "snapshot_ensemble") quiet))).
Proof.
  split.
  - apply (proj1 (reinitialise_only_deep_boundary (ensemble "deep_ensemble") quiet)
                 (Some 1)).
    vm_compute. do 7 right. left. reflexivity.
  - apply (proj2 (reinitialise_only_deep_boundary (ensemble "snapshot_ensemble") quiet)).
    intros p Hp. inversion Hp; subst. discriminate.
Defined.

(** *** The best performance *)

Lemma max_cases a b : max a b = a \/ max a b = b.
Proof. unfold max. destruct (gt b a); auto. Qed.

Lemma max_upper_l a b : (a <= max a b)%Q.
Proof.
  unfold max. destruct (gt b a) eqn:E.
  - apply gt_lt in E. now apply Qlt_le_weak.
  - apply Qle_refl.
Qed.

(** C10.  [best_performance] never decreases: not across the whole
    [try] block, and not over any single epoch.  When an epoch validates
    with result [p], the new best is [max(p, best_performance)], which is
    above both, and the checkpoint saved for that epoch carries [p] and an
    [is_best] flag that is set exactly when [p] strictly exceeds the
    previous best. *)
Theorem best_performance_monotone s w :
  (session_best_performance s <= best_performance (fst (run_try s w)))%Q /\
  (forall e st,
      (best_performance st <= best_performance (fst (epoch_body s w e st)))%Q) /\
  (forall e st,
      has_val s = true ->
      raises w (STrain e) = None -> raises w (SValidate e) = None ->
      let p := validate_result w e in
      let st' := fst (train_and_validate s w e st) in
      best_performance st' = max p (best_performance st) /\
      (p <= best_performance st')%Q /\
      (best_performance st <= best_performance st')%Q /\
      (raises w (SSaveCheckpoint e) = None ->
       exists is_best,
         trace st' = trace st
                     ++ [(epoch st, Train e);
                         (epoch st, Validate ((e + 1) * train_size s));
                         (epoch st, SaveCheckpoint None p is_best)] /\
         (is_best = true <-> (best_performance st < p)%Q))).
Proof.
  split; [|split].
  - apply (run_try_invariant
             (fun st => (session_best_performance s <= best_performance st)%Q)).
    + intros st _ _ _ ->. apply Qle_refl.
    + intros e st H. eapply Qle_trans; [exact H | apply body_best].
  - intros e st. apply body_best.
  - intros e st Hv Ht He p st'. subst p st'.
    unfold train_and_validate, bind, call, read, read_best, set_performance,
      set_best_performance, ret.
    rewrite Ht, Hv, He. cbn [fst snd performance best_performance log trace epoch].
    destruct (raises w (SSaveCheckpoint e)) eqn:Hs;
      cbn [fst snd performance best_performance log trace epoch].
    + repeat split; try apply max_upper_l; try apply max_upper. discriminate.
    + repeat split; try apply max_upper_l; try apply max_upper.
      intros _. exists (gt (validate_result w e) (best_performance st)).
      split; [now rewrite <- !app_assoc | apply gt_lt].
Qed.

Lemma best_performance_monotone_witness :
  exists is_best,
    trace (fst (train_and_validate (plain 3) quiet 2 (initial (plain 3))))
    = [(None, Train 2); (None, Validate 300);
       (None, SaveCheckpoint None (validate_result quiet 2) is_best)] /\
    (is_best = true <-> (0 < validate_result quiet 2)%Q).
Proof.
  destruct (best_performance_monotone (plain 3) quiet) as [_ [_ H]].
  exact (proj2 (proj2 (proj2 (H 2 (initial (plain 3)) eq_refl eq_refl eq_refl)))
               eq_refl).
Defined.

(** *** Ensemble members *)

Lemma body_without_val s w e st :
  has_val s = false ->
  performance st = None /\ Forall (fun x => ~ member_checkpoint (snd x)) (trace st) ->
  performance (fst (epoch_body s w e st)) = None /\
  Forall (fun x => ~ member_checkpoint (snd x)) (trace (fst (epoch_body s w e st))).
Proof.
  intros Hv [Hp H]. run_body; cbn [fst trace performance]; try congruence;
    split; try assumption;
    repeat (apply Forall_app; split); try assumption;
    repeat constructor; cbn [snd member_checkpoint]; tauto.
Qed.

(** Without a validation split no ensemble member is ever saved. *)
Lemma no_member_checkpoint_without_val s w :
  has_val s = false ->
  Forall (fun x => ~ member_checkpoint (snd x)) (trace (fst (run s w))).
Proof.
  intros Hv. apply run_trace.
  - apply (run_try_invariant
             (fun st => performance st = None /\
                        Forall (fun x => ~ member_checkpoint (snd x)) (trace st))).
    + intros st _ Hp -> _. split; [assumption | constructor].
    + intros e st. now apply body_without_val.
  - intros [ep ev] Hc. cbn [snd] in *. destruct ev; simpl in *; tauto.
Qed.

(** C2.  A snapshot ensemble of two cycles of two epochs, run without a
    validation split: epoch 1 is a checkpoint epoch ([1 + 1] is in
    [checkpoints]), but [performance] was never assigned, so line 101
    raises [NameError]; no ensemble member is saved, [m] stays at its
    initial value and the run aborts. *)
Theorem member_checkpoint_needs_validation :
  let s := ensemble_without_val "snapshot_ensemble" in
  mem (1 + 1) (checkpoints (props "snapshot_ensemble")) = true /\
  snd (run s quiet) = inl (NameError "performance") /\
  events (fst (run s quiet))
  = [Train 0; Train 1; user_abort;
     ExportScalarsToJson "train"; Close "train";
     ExportScalarsToJson "val"; Close "val"] /\
  m (fst (run s quiet)) = Some 0.
Proof. repeat split. Qed.

Lemma quot_floor a b : 0 <= a -> 0 < b -> Z.quot a b = a / b.
Proof. intros Ha Hb. apply Z.quot_div_nonneg; lia. Qed.

(** With a validation result at hand the cadence is the stated one. *)
Lemma member_checkpoint_cadence s w p e st member perf :
  ensemble_properties s = Some p -> type_in p ensemble_types = true ->
  m st = Some member -> performance st = Some perf ->
  raises w (SSaveEnsemble e) = None ->
  let st' := fst (ensemble_checkpoint s w e st) in
  ((exists cp, 1 <= cp <= ensemble_size p /\ e + 1 = cycle_length p * cp) ->
   m st' = Some (member + 1) /\
   exists rest,
     trace st' = trace st
                 ++ (epoch st, SaveEnsembleCheckpoint perf "ensemble" member)
                 :: rest /\
     Forall (fun x => ~ member_checkpoint (snd x)) rest) /\
  (~ (exists cp, 1 <= cp <= ensemble_size p /\ e + 1 = cycle_length p * cp) ->
   st' = st).
Proof.
  intros Hp Ht Hm Hperf Hs st'. subst st'.
  unfold ensemble_checkpoint, bind, call, read, set_m, ret.
  rewrite Hp, Ht. split.
  - intros Hcp. apply mem_checkpoints in Hcp. rewrite Hcp, Hm, Hperf, Hs.
    cbn [fst snd log trace epoch m].
    destruct (type_in p ["deep_ensemble"%string]).
    + destruct (raises w (SReinit e)); cbn [fst snd log trace epoch m];
        (split; [reflexivity|]).
      * exists []. split; [reflexivity | constructor].
      * exists [(epoch st, ReInitialiseModel)]. rewrite <- app_assoc.
        split; [reflexivity|]. repeat constructor. simpl. tauto.
    + cbn [fst m trace]. split; [reflexivity|]. exists [].
      split; [reflexivity | constructor].
  - intros Hcp. destruct (mem (e + 1) (checkpoints p)) eqn:E.
    + apply mem_checkpoints in E. contradiction.
    + reflexivity.
Qed.

End MainSpec.

(** ** Properties of the metric pipeline *)

Module ValidateSpec.

Import Py Validate Examples MoreExamples.

Local Open Scope nat_scope.

Lemma key_lt_trans a b c : key_lt a b -> key_lt b c -> key_lt a c.
Proof. apply OrdersEx.String_as_OT.lt_strorder. Qed.

Lemma key_lt_irrefl a : ~ key_lt a a.
Proof. apply OrdersEx.String_as_OT.lt_strorder. Qed.

Lemma key_compare_spec a b :
  CompareSpec (a = b) (key_lt a b) (key_lt b a) (key_compare a b).
Proof. apply OrdersEx.String_as_OT.compare_spec. Qed.

Lemma add_row_keys k r gs k' :
  In k' (map fst (add_row k r gs)) <-> k' = k \/ In k' (map fst gs).
Proof.
  induction gs as [|[k0 rs] gs IH]; simpl.
  - intuition.
  - destruct (key_compare_spec k k0) as [->|H|H]; simpl.
    + intuition.
    + intuition.
    + rewrite IH. intuition.
Qed.

Lemma add_row_sorted k r gs : keys_sorted gs -> keys_sorted (add_row k r gs).
Proof.
  unfold keys_sorted. induction gs as [|[k0 rs] gs IH]; simpl; intros H.
  - repeat constructor.
  - apply StronglySorted_inv in H. destruct H as [Hs Hall].
    destruct (key_compare_spec k k0) as [->|Hlt|Hgt]; simpl.
    + now constructor.
    + constructor; [now constructor|]. constructor; [assumption|].
      eapply Forall_impl; [|exact Hall]. intros a Ha.
      now apply (key_lt_trans k k0 a).
    + constructor; [now apply IH|]. apply Forall_forall. intros a Ha.
      apply add_row_keys in Ha. destruct Ha as [->|Ha]; [assumption|].
      rewrite Forall_forall in Hall. now apply Hall.
Qed.

Lemma rows_at_absent k gs : ~ In k (map fst gs) -> rows_at k gs = [].
Proof.
  induction gs as [|[k0 rs] gs IH]; simpl; intros H; [reflexivity|].
  destruct (String.eqb_spec k0 k) as [->|Hne]; [tauto|]. apply IH. tauto.
Qed.

Lemma sorted_head_absent k k0 ks :
  key_lt k k0 -> Forall (key_lt k0) ks -> ~ In k (k0 :: ks).
Proof.
  intros Hlt Hall [->|Hin].
  - exact (key_lt_irrefl _ Hlt).
  - rewrite Forall_forall in Hall.
    exact (key_lt_irrefl _ (key_lt_trans _ _ _ Hlt (Hall _ Hin))).
Qed.

Lemma add_row_rows k r gs k' :
  keys_sorted gs ->
  rows_at k' (add_row k r gs)
  = if String.eqb k k' then rows_at k' gs ++ [r] else rows_at k' gs.
Proof.
  unfold keys_sorted. induction gs as [|[k0 rs] gs IH]; simpl; intros H.
  - destruct (String.eqb k k'); reflexivity.
  - apply StronglySorted_inv in H. destruct H as [Hs Hall].
    destruct (key_compare_spec k k0) as [->|Hlt|Hgt]; simpl.
    + destruct (String.eqb k0 k'); reflexivity.
    + destruct (String.eqb_spec k k') as [->|Hne]; [|reflexivity].
      pose proof (sorted_head_absent k' k0 (map fst gs) Hlt Hall) as Habs.
      change (k0 :: map fst gs) with (map fst ((k0, rs) :: gs)) in Habs.
      apply rows_at_absent in Habs. simpl in Habs. rewrite Habs. reflexivity.
    + destruct (String.eqb_spec k0 k') as [->|Hne].
      * destruct (String.eqb_spec k k') as [->|_]; [|reflexivity].
        exfalso. exact (key_lt_irrefl _ Hgt).
      * now apply IH.
Qed.

Lemma rows_of_cons key_of k x df :
  rows_of key_of k (x :: df)
  = (if String.eqb (key_of (fst x)) k then [snd x] else []) ++ rows_of key_of k df.
Proof.
  unfold rows_of. simpl. destruct (String.eqb (key_of (fst x)) k); reflexivity.
Qed.

Lemma groupby_spec key_of df : forall gs,
  keys_sorted gs ->
  let out := fold_left (fun gs x => add_row (key_of (fst x)) (snd x) gs) df gs in
  keys_sorted out /\
  (forall k, rows_at k out = rows_at k gs ++ rows_of key_of k df) /\
  (forall k, In k (map fst out) <->
             In k (map fst gs) \/ exists x, In x df /\ key_of (fst x) = k).
Proof.
  induction df as [|x df IH]; intros gs Hs; simpl.
  - split; [assumption|]. split.
    + intros k. unfold rows_of. simpl. now rewrite app_nil_r.
    + intros k. split; [auto|]. intros [H|[y [[] _]]]. exact H.
  - destruct (IH (add_row (key_of (fst x)) (snd x) gs)) as [H1 [H2 H3]].
    { now apply add_row_sorted. }
    split; [exact H1|]. split.
    + intros k. rewrite H2, add_row_rows by assumption.
      rewrite rows_of_cons.
      destruct (String.eqb (key_of (fst x)) k); simpl;
        now rewrite <- ?app_assoc.
    + intros k. rewrite H3, add_row_keys. split.
      * intros [[->|H]|[y [Hy Hk]]]; eauto.
      * intros [H|[y [[->|Hy] Hk]]]; eauto.
Qed.

Lemma groups_by_lookup gs :
  keys_sorted gs -> gs = map (fun k => (k, rows_at k gs)) (map fst gs).
Proof.
  unfold keys_sorted. induction gs as [|[k0 rs] gs IH]; simpl; intros H.
  - reflexivity.
  - apply StronglySorted_inv in H. destruct H as [Hs Hall].
    rewrite String.eqb_refl. f_equal.
    rewrite (IH Hs) at 1. apply map_ext_in. intros k Hk.
    rewrite Forall_forall in Hall.
    destruct (String.eqb_spec k0 k) as [->|_]; [|reflexivity].
    exfalso. exact (key_lt_irrefl _ (Hall _ Hk)).
Qed.

Lemma insert_at_head x f :
  Forall (fun y => key_lt (fst x) (fst y)) f -> insert_by_key x f = x :: f.
Proof.
  destruct f as [|y f]; simpl; intros H; [reflexivity|].
  apply Forall_inv in H.
  destruct (key_compare_spec (fst x) (fst y)) as [E|Hlt|Hgt]; try reflexivity.
  exfalso. exact (key_lt_irrefl _ (key_lt_trans _ _ _ H Hgt)).
Qed.

Lemma sort_index_sorted f :
  StronglySorted key_lt (map fst f) -> sort_index f = f.
Proof.
  induction f as [|x f IH]; simpl; intros H; [reflexivity|].
  apply StronglySorted_inv in H. destruct H as [Hs Hall].
  unfold sort_index in *. simpl. rewrite (IH Hs). apply insert_at_head.
  rewrite Forall_map in Hall. exact Hall.
Qed.

Lemma split_token a rest :
  dash_free a ->
  split dash (a ++ String dash rest) = a :: split dash rest.
Proof.
  induction a as [|c a IH]; simpl; intros H.
  - reflexivity.
  - destruct H as [Hc Ha]. apply Ascii.eqb_neq in Hc. rewrite Hc.
    now rewrite (IH Ha).
Qed.

Lemma split_last a : dash_free a -> split dash a = [a].
Proof.
  induction a as [|c a IH]; simpl; intros H.
  - reflexivity.
  - destruct H as [Hc Ha]. apply Ascii.eqb_neq in Hc. rewrite Hc.
    now rewrite (IH Ha).
Qed.

Lemma split_nonempty sep s : split sep s <> [].
Proof.
  destruct s as [|c s]; simpl; [discriminate|].
  destruct (Ascii.eqb c sep); [discriminate|].
  destruct (split sep s); discriminate.
Qed.

Lemma join_next sep a b l :
  join sep (a :: b :: l) = (a ++ sep ++ join sep (b :: l))%string.
Proof. reflexivity. Qed.

Lemma join_head sep c t ts :
  join sep (String c t :: ts) = String c (join sep (t :: ts)).
Proof. destruct ts; reflexivity. Qed.

Lemma join_split s : join (String dash EmptyString) (split dash s) = s.
Proof.
  induction s as [|c s IH]; simpl.
  - reflexivity.
  - pose proof (split_nonempty dash s) as Hne.
    destruct (split dash s) as [|t ts] eqn:E; [congruence|].
    destruct (Ascii.eqb_spec c dash) as [->|Hc].
    + rewrite join_next, IH. reflexivity.
    + rewrite join_head, IH. reflexivity.
Qed.

Lemma group_key_prefix a b rest :
  dash_free a -> dash_free b ->
  group_key (a ++ String dash (b ++ String dash rest)) = (a ++ String dash b)%string.
Proof.
  intros Ha Hb. unfold group_key.
  rewrite (split_token a _ Ha), (split_token b _ Hb).
  pose proof (split_nonempty dash rest) as Hne.
  destruct (split dash rest); [congruence|]. reflexivity.
Qed.

Lemma group_key_two a b :
  dash_free a -> dash_free b ->
  group_key (a ++ String dash b) = (a ++ String dash b)%string.
Proof.
  intros Ha Hb. unfold group_key.
  rewrite (split_token a _ Ha), (split_last b Hb). reflexivity.
Qed.

Lemma group_key_one a : dash_free a -> group_key a = a.
Proof. intros Ha. unfold group_key. now rewrite (split_last a Ha). Qed.

Lemma groupby_sorted key_of df : keys_sorted (groupby key_of df).
Proof. apply (groupby_spec key_of df []). constructor. Qed.

Lemma groupby_groups key_of df :
  groupby key_of df
  = map (fun k => (k, rows_of key_of k df)) (map fst (groupby key_of df)).
Proof.
  rewrite (groups_by_lookup _ (groupby_sorted key_of df)) at 1.
  apply map_ext. intros k. f_equal.
  destruct (groupby_spec key_of df [] (SSorted_nil _)) as [_ [H _]].
  apply H.
Qed.

Lemma grouping_spec n_cols df :
  exists keys,
    StronglySorted key_lt keys /\
    (forall k, In k keys <-> exists x, In x df /\ group_key (fst x) = k) /\
    grouped_predictions n_cols df
    = map (fun k => (k, map (fun j => average (column j (rows_of group_key k df)))
                            (seq 0 n_cols))) keys /\
    grouped_targets df
    = map (fun k => (k, hd [] (rows_of group_key k df))) keys.
Proof.
  exists (map fst (groupby group_key df)).
  pose proof (groupby_sorted group_key df) as Hs.
  destruct (groupby_spec group_key df [] (SSorted_nil _)) as [_ [_ Hk]].
  split; [exact Hs|]. split.
  - intros k. rewrite Hk. simpl. tauto.
  - unfold grouped_predictions, grouped_targets, mean, first. split.
    + rewrite sort_index_sorted.
      * rewrite (groupby_groups group_key df) at 1. rewrite map_map.
        reflexivity.
      * rewrite map_map. exact Hs.
    + rewrite sort_index_sorted.
      * rewrite (groupby_groups group_key df) at 1. rewrite map_map.
        reflexivity.
      * rewrite map_map. exact Hs.
Qed.

Lemma dash_free_iff a :
  dash_free a <-> ~ In "-"%char (list_ascii_of_string a).
Proof.
  induction a as [|c a IH]; simpl.
  - tauto.
  - rewrite IH. unfold dash. intuition congruence.
Qed.

Lemma average_column j (rows : list row) :
  average (column j rows)
  = (fold_right Qplus 0 (map (fun r => nth j r 0) rows)
     / inject_Z (Z.of_nat (List.length rows)))%Q.
Proof. unfold average, total, column. now rewrite length_map. Qed.

(** C5.  The grouping key of a sample ID joins its first two
    dash-separated tokens with a dash: it is [a-b] for an ID [a-b-rest]
    and for an ID [a-b], and the ID itself when it holds no dash, [a] and
    [b] holding no dash.  The grouped predictions and the grouped targets
    of a frame have the same keys, in strictly increasing order; the keys
    are the grouping keys of the frame's sample IDs; the prediction row of
    a key is, column by column, the sum of the rows of the samples with
    that key divided by their number, and its target row is the first of
    those rows. *)
Theorem views_grouped_by_key n_cols df :
  (forall a b rest,
      ~ In "-"%char (list_ascii_of_string a) ->
      ~ In "-"%char (list_ascii_of_string b) ->
      group_key (a ++ "-" ++ b ++ "-" ++ rest) = (a ++ "-" ++ b)%string) /\
  (forall a b,
      ~ In "-"%char (list_ascii_of_string a) ->
      ~ In "-"%char (list_ascii_of_string b) ->
      group_key (a ++ "-" ++ b) = (a ++ "-" ++ b)%string) /\
  (forall a, ~ In "-"%char (list_ascii_of_string a) -> group_key a = a) /\
  exists keys,
    StronglySorted OrdersEx.String_as_OT.lt keys /\
    (forall k, In k keys <-> exists x, In x df /\ group_key (fst x) = k) /\
    grouped_predictions n_cols df
    = map (fun k =>
             let rows :=
               map snd (filter (fun x => String.eqb (group_key (fst x)) k) df) in
             (k, map (fun j =>
                        (fold_right Qplus 0 (map (fun r => nth j r 0) rows)
                         / inject_Z (Z.of_nat (List.length rows)))%Q)
                     (seq 0 n_cols))) keys /\
    grouped_targets df
    = map (fun k =>
             (k, hd [] (map snd (filter (fun x => String.eqb (group_key (fst x)) k)
                                        df)))) keys.
Proof.
  split; [|split; [|split]].
  - intros a b rest Ha Hb. apply dash_free_iff in Ha, Hb.
    exact (group_key_prefix a b rest Ha Hb).
  - intros a b Ha Hb. apply dash_free_iff in Ha, Hb.
    exact (group_key_two a b Ha Hb).
  - intros a Ha. apply dash_free_iff in Ha. exact (group_key_one a Ha).
  - destruct (grouping_spec n_cols df) as [keys [Hs [Hk [Hp Ht]]]].
    exists keys. split; [exact Hs|]. split; [exact Hk|]. split.
    + rewrite Hp. apply map_ext. intros k. cbv zeta. f_equal.
      apply map_ext. intros j. apply average_column.
    + exact Ht.
Qed.

Lemma rows_of_In key_of k df r :
  In r (rows_of key_of k df) -> In r (map snd df).
Proof.
  unfold rows_of. rewrite !in_map_iff. intros [x [E Hx]].
  apply filter_In in Hx. exists x. tauto.
Qed.

Lemma rows_of_nonempty key_of x df :
  In x df -> rows_of key_of (key_of (fst x)) df <> [].
Proof.
  intros Hx E. assert (H : In (snd x) (rows_of key_of (key_of (fst x)) df)).
  { unfold rows_of. apply in_map. apply filter_In. split; [assumption|].
    apply String.eqb_refl. }
  rewrite E in H. destruct H.
Qed.

(** A grouped target row is one of the stored rows. *)
Lemma grouped_targets_stored df r :
  In r (map snd (grouped_targets df)) -> In r (map snd df).
Proof.
  destruct (grouping_spec 0 df) as [keys [_ [Hk [_ Ht]]]].
  rewrite Ht, map_map. cbn [snd]. rewrite in_map_iff.
  intros [k [E Hin]]. apply Hk in Hin. destruct Hin as [x [Hx Hkey]].
  pose proof (rows_of_nonempty group_key x df Hx) as Hne. rewrite Hkey in Hne.
  apply (rows_of_In group_key k). subst r.
  destruct (rows_of group_key k df); [congruence | now left].
Qed.

(** *** The per-class AUC *)

Lemma any_eq_iff v col :
  any_eq v col = true <-> exists x, In x col /\ (x == v)%Q.
Proof.
  unfold any_eq. rewrite existsb_exists. split.
  - intros [x [Hx E]]. exists x. split; [assumption | now apply Qeq_bool_iff].
  - intros [x [Hx E]]. exists x. split; [assumption | now apply Qeq_bool_iff].
Qed.

Lemma where_eq_In v col j :
  In j (where_eq v col) <-> j < List.length col /\ (nth j col 0%Q == v)%Q.
Proof.
  unfold where_eq. rewrite filter_In, in_seq, Qeq_bool_iff. intuition lia.
Qed.

Lemma samples_of_In t j :
  In j (samples_of t) <->
  j < List.length t /\ ((nth j t 0%Q == 0)%Q \/ (nth j t 0%Q == 1)%Q).
Proof.
  unfold samples_of. rewrite in_app_iff, !where_eq_In. tauto.
Qed.

(** The columns of an array, row by row. *)
Lemma column_nth i (arr : array) : forall j,
  nth j (column i arr) 0%Q = nth i (nth j arr []) 0%Q.
Proof.
  induction arr as [|r arr IH]; intros [|j]; simpl;
    try (destruct i; reflexivity); try reflexivity. apply IH.
Qed.

Lemma column_length i (arr : array) :
  List.length (column i arr) = List.length arr.
Proof. unfold column. apply length_map. Qed.

Lemma where_eq_column v i (arr : array) :
  where_eq v (column i arr)
  = filter (fun j => Qeq_bool (nth i (nth j arr []) 0%Q) v)
           (seq 0 (List.length arr)).
Proof.
  unfold where_eq. rewrite column_length. apply filter_ext. intros j.
  now rewrite column_nth.
Qed.

Lemma take_column i (arr : array) samples :
  take (column i arr) samples
  = map (fun j => nth i (nth j arr []) 0%Q) samples.
Proof. unfold take. apply map_ext. intros j. apply column_nth. Qed.

Lemma holds_iff (t : nat -> Q) n v :
  existsb (fun j => Qeq_bool (t j) v) (seq 0 n) = true
  <-> exists j, j < n /\ (t j == v)%Q.
Proof.
  rewrite existsb_exists. split.
  - intros [j [Hj E]]. apply in_seq in Hj. exists j.
    split; [lia | now apply Qeq_bool_iff].
  - intros [j [Hj E]]. exists j. rewrite in_seq.
    split; [lia | now apply Qeq_bool_iff].
Qed.

Lemma any_eq_column v i (arr : array) :
  any_eq v (column i arr)
  = existsb (fun j => Qeq_bool (nth i (nth j arr []) 0%Q) v)
            (seq 0 (List.length arr)).
Proof.
  apply Bool.eq_iff_eq_true. rewrite any_eq_iff, holds_iff. split.
  - intros [x [Hx E]]. apply (In_nth _ _ 0%Q) in Hx.
    destruct Hx as [j [Hj Hn]]. rewrite column_length in Hj.
    exists j. split; [assumption|]. now rewrite <- column_nth, Hn.
  - intros [j [Hj E]]. exists (nth j (column i arr) 0%Q). split.
    + apply nth_In. now rewrite column_length.
    + now rewrite column_nth.
Qed.

Lemma selected_iff (t : nat -> Q) n j :
  In j (filter (fun j => Qeq_bool (t j) 0) (seq 0 n)
        ++ filter (fun j => Qeq_bool (t j) 1) (seq 0 n))
  <-> j < n /\ ((t j == 0)%Q \/ (t j == 1)%Q).
Proof.
  rewrite in_app_iff, !filter_In, !in_seq, !Qeq_bool_iff. intuition lia.
Qed.

Section WithScore.

Variable roc_auc_score : list Q -> list Q -> result Q.

Lemma class_auc_guard_fails targets predictions i :
  any_eq 0%Q (column i targets) && any_eq 1%Q (column i targets) = false ->
  class_auc roc_auc_score targets predictions i = inr (1 # 2)%Q.
Proof. intros H. unfold class_auc. rewrite H. reflexivity. Qed.

Lemma class_aucs_loop_spec targets predictions tasks : forall acc l,
  class_aucs_loop roc_auc_score targets predictions tasks acc = inr l ->
  exists vs,
    l = acc ++ vs /\ List.length vs = List.length tasks /\
    forall k, k < List.length tasks ->
              class_auc roc_auc_score targets predictions (nth k tasks 0)
              = inr (nth k vs 0%Q).
Proof.
  induction tasks as [|i tasks IH]; simpl; intros acc l H.
  - inversion H; subst. exists []. rewrite app_nil_r.
    repeat split. intros k Hk. lia.
  - unfold and_then in H.
    destruct (class_auc roc_auc_score targets predictions i) as [e|v] eqn:E;
      [discriminate|].
    destruct (IH _ _ H) as [vs [Hl [Hlen Hnth]]].
    exists (v :: vs). rewrite <- app_assoc in Hl. split; [exact Hl|].
    split; [simpl; congruence|]. intros [|k] Hk; simpl.
    + exact E.
    + apply Hnth. lia.
Qed.

Lemma class_aucs_nth n_tasks targets predictions l i :
  class_aucs roc_auc_score n_tasks targets predictions = inr l ->
  i < n_tasks ->
  List.length l = n_tasks /\
  class_auc roc_auc_score targets predictions i = inr (nth i l 0%Q).
Proof.
  intros H Hi. unfold class_aucs in H.
  destruct (class_aucs_loop_spec _ _ _ _ _ H) as [vs [Hl [Hlen Hnth]]].
  simpl in Hl. subst vs. rewrite length_seq in Hlen, Hnth.
  split; [assumption|]. specialize (Hnth i Hi).
  rewrite seq_nth in Hnth by assumption. exact Hnth.
Qed.

(** The body of the loop over the classes, in terms of the rows of the
    two arrays. *)
Lemma class_auc_rows targets predictions i :
  let t := fun j => nth i (nth j targets []) 0%Q in
  let p := fun j => nth i (nth j predictions []) 0%Q in
  let rows := seq 0 (List.length targets) in
  let selected := filter (fun j => Qeq_bool (t j) 0) rows
                  ++ filter (fun j => Qeq_bool (t j) 1) rows in
  class_auc roc_auc_score targets predictions i
  = if existsb (fun j => Qeq_bool (t j) 0) rows
       && existsb (fun j => Qeq_bool (t j) 1) rows
    then match roc_auc_score (map t selected) (map p selected) with
         | inl ValueError => inr (1 # 2)%Q
         | inl e => inl e
         | inr v => inr v
         end
    else inr (1 # 2)%Q.
Proof.
  cbv zeta. unfold class_auc. cbv zeta. unfold samples_of.
  rewrite !any_eq_column, !where_eq_column, !take_column.
  destruct (existsb _ _ && existsb _ _); reflexivity.
Qed.

(** C4.  When the loop over the classes returns the list [l], its entry
    for class [i] is exactly 0.5 if the target column does not hold both
    a value equal to 0 and a value equal to 1, and also if
    [roc_auc_score] raises [ValueError]; if the column holds both and the
    score is returned, the entry is that score.  The score is computed on
    the targets and the predictions, in column [i], of the samples whose
    target is 0, followed by those whose target is 1. *)
Theorem class_auc_fallback n_tasks targets predictions l i :
  class_aucs roc_auc_score n_tasks targets predictions = inr l ->
  i < n_tasks ->
  let t := fun j => nth i (nth j targets []) 0%Q in
  let p := fun j => nth i (nth j predictions []) 0%Q in
  let rows := seq 0 (List.length targets) in
  let selected := filter (fun j => Qeq_bool (t j) 0) rows
                  ++ filter (fun j => Qeq_bool (t j) 1) rows in
  let score := roc_auc_score (map t selected) (map p selected) in
  let holds := fun v => exists j, j < List.length targets /\ (t j == v)%Q in
  (~ (holds 0%Q /\ holds 1%Q) -> nth i l 0%Q = (1 # 2)%Q) /\
  (score = inl ValueError -> nth i l 0%Q = (1 # 2)%Q) /\
  (forall v, holds 0%Q -> holds 1%Q -> score = inr v -> nth i l 0%Q = v) /\
  (forall j, In j selected <->
             j < List.length targets /\ ((t j == 0)%Q \/ (t j == 1)%Q)).
Proof.
  intros H Hi t p rows selected score holds.
  destruct (class_aucs_nth _ _ _ _ _ H Hi) as [_ Hc].
  rewrite class_auc_rows in Hc.
  change ((if existsb (fun j => Qeq_bool (t j) 0) rows
              && existsb (fun j => Qeq_bool (t j) 1) rows
           then match score with
                | inl ValueError => inr (1 # 2)%Q
                | inl e => inl e
                | inr v => inr v
                end
           else inr (1 # 2)%Q) = inr (nth i l 0%Q)) in Hc.
  assert (Hex : forall v, existsb (fun j => Qeq_bool (t j) v) rows = true
                          <-> holds v) by (intros v; apply holds_iff).
  split; [|split; [|split]].
  - intros Hn.
    destruct (existsb (fun j => Qeq_bool (t j) 0) rows) eqn:G0;
      [destruct (existsb (fun j => Qeq_bool (t j) 1) rows) eqn:G1|];
      cbn [andb] in Hc; try (now inversion Hc).
    exfalso. apply Hn. split; now apply Hex.
  - intros E.
    destruct (existsb (fun j => Qeq_bool (t j) 0) rows
              && existsb (fun j => Qeq_bool (t j) 1) rows);
      [rewrite E in Hc|]; now inversion Hc.
  - intros v H0 H1 E. apply Hex in H0, H1. rewrite H0, H1, E in Hc.
    now inversion Hc.
  - intros j. apply selected_iff.
Qed.

End WithScore.

(** *** Storing the batches *)

Lemma skipn_repeat {A} (z : A) k : forall r,
  skipn k (repeat z r) = repeat z (r - k).
Proof.
  induction k as [|k IH]; intros [|r]; simpl; try reflexivity. apply IH.
Qed.

Lemma fit_row_error n r e : fit_row n r = inl e -> e = ValueError.
Proof.
  unfold fit_row. destruct (List.length r =? n); [discriminate|].
  destruct (List.length r =? 1); [discriminate|]. intros H. now inversion H.
Qed.

Lemma fit_rows_error n rows : forall e,
  fit_rows n rows = inl e -> e = ValueError.
Proof.
  induction rows as [|r rows IH]; simpl; intros e; [discriminate|].
  destruct (fit_row n r) as [e1|r'] eqn:E; cbn [and_then].
  - intros H. inversion H; subst. exact (fit_row_error _ _ _ E).
  - destruct (fit_rows n rows) as [e2|rest]; cbn [and_then];
      [|discriminate]. intros H. inversion H; subst. now apply IH.
Qed.

Lemma fit_rows_length n rows : forall fitted,
  fit_rows n rows = inr fitted -> List.length fitted = List.length rows.
Proof.
  induction rows as [|r rows IH]; simpl; intros fitted H.
  - now inversion H.
  - destruct (fit_row n r) as [e1|r']; cbn [and_then] in H; [discriminate|].
    destruct (fit_rows n rows) as [e2|rest]; cbn [and_then] in H;
      [discriminate|]. inversion H; subst. simpl. now rewrite (IH rest).
Qed.

Lemma fit_rows_app n a b :
  fit_rows n (a ++ b)
  = match fit_rows n a, fit_rows n b with
    | inr x, inr y => inr (x ++ y)
    | _, _ => inl ValueError
    end.
Proof.
  induction a as [|r a IH]; simpl.
  - destruct (fit_rows n b) as [e|y] eqn:E; [|reflexivity].
    now rewrite (fit_rows_error _ _ _ E).
  - destruct (fit_row n r) as [e1|r'] eqn:E; cbn [and_then].
    + now rewrite (fit_row_error _ _ _ E).
    + rewrite IH. destruct (fit_rows n a) as [e2|x] eqn:Ea; cbn [and_then].
      * reflexivity.
      * destruct (fit_rows n b); reflexivity.
Qed.

Lemma fit_rows_shaped n rows :
  Forall (fun r => List.length r = n) rows -> fit_rows n rows = inr rows.
Proof.
  induction 1 as [|r rows Hr _ IH]; simpl; [reflexivity|].
  unfold fit_row. apply Nat.eqb_eq in Hr. rewrite Hr. cbn [and_then].
  now rewrite IH.
Qed.

Lemma assign_rows_next (z : row) n a b rows fitted filled r :
  List.length filled = a -> a <= b ->
  List.length rows = Nat.min (b - a) r ->
  fit_rows n rows = inr fitted ->
  assign_rows n a b rows (filled ++ repeat z r)
  = inr (filled ++ fitted ++ repeat z (r - Nat.min (b - a) r)).
Proof.
  intros Ha Hab Hrows Hfit. unfold assign_rows. rewrite Hfit. cbn [and_then].
  rewrite length_app, repeat_length, Ha.
  replace (Nat.min a (a + r)) with a by lia.
  replace (Nat.min b (a + r) - a) with (Nat.min (b - a) r) by lia.
  rewrite Hrows, Nat.eqb_refl. f_equal.
  rewrite firstn_app, <- Ha, firstn_all, Nat.sub_diag, firstn_O, app_nil_r.
  f_equal. f_equal.
  rewrite skipn_app, skipn_all2 by lia. simpl.
  rewrite skipn_repeat. f_equal. lia.
Qed.

Lemma assign_rows_unfit n a b rows arr e :
  fit_rows n rows = inl e -> assign_rows n a b rows arr = inl ValueError.
Proof.
  intros H. unfold assign_rows. rewrite H. cbn [and_then].
  now rewrite (fit_rows_error _ _ _ H).
Qed.

Ltac case_fit :=
  match goal with
  | |- context [match fit_rows ?n ?x with _ => _ end] =>
      destruct (fit_rows n x)
  end.

(** What the batch loop stores for a loader that yields full batches and
    then the rest: the rows of all batches, each fitted to the arrays, or
    a [ValueError] when a row does not fit. *)
Lemma store_chunked (z : row) batchsize n_tasks loader :
  forall i acc filled_p filled_t r,
  predictions acc = filled_p ++ repeat z r ->
  targets acc = filled_t ++ repeat z r ->
  List.length filled_p = i * batchsize ->
  List.length filled_t = i * batchsize ->
  chunked batchsize r loader ->
  store batchsize n_tasks i loader acc
  = match fit_rows n_tasks (List.concat (map pred loader)),
          fit_rows n_tasks
                   (map (map rescale) (List.concat (map target loader))) with
    | inr ps, inr ts =>
        inr {| predictions := filled_p ++ ps;
               targets := filled_t ++ ts;
               sample_keys := sample_keys acc ++ List.concat (map ID loader) |}
    | _, _ => inl ValueError
    end.
Proof.
  induction loader as [|b rest IH]; intros i acc fp ft r Hp Ht Hlp Hlt Hc.
  - simpl in *. subst r. simpl in *. rewrite !app_nil_r in *.
    destruct acc; simpl in *. now subst.
  - destruct Hc as [Hr [Hb [Htb [_ Hrest]]]].
    cbn [store map List.concat]. rewrite Hp, Ht, map_app, !fit_rows_app.
    assert (Hslice : (i + 1) * batchsize - i * batchsize = batchsize) by nia.
    assert (Hle : i * batchsize <= (i + 1) * batchsize) by nia.
    destruct (fit_rows n_tasks (pred b)) as [e|pb] eqn:Epb.
    { now rewrite (assign_rows_unfit _ _ _ _ _ _ Epb). }
    rewrite (assign_rows_next z n_tasks (i * batchsize) ((i + 1) * batchsize)
                              (pred b) pb fp r Hlp Hle)
      by (try exact Epb; rewrite Hslice; exact Hb).
    cbn [and_then].
    match goal with
    | |- context [match ?t with _ => _ end] =>
        match t with
        | fit_rows _ (map _ (target b)) => destruct t as [e|tb] eqn:Etb
        end
    end.
    { rewrite (assign_rows_unfit _ _ _ _ _ _ Etb). cbn [and_then]. clear IH.
      unfold array, row in *. repeat case_fit; reflexivity. }
    rewrite (assign_rows_next z n_tasks (i * batchsize) ((i + 1) * batchsize)
                              (map (map rescale) (target b)) tb ft r Hlt Hle)
      by (try exact Etb; rewrite Hslice, <- Hb, <- Htb; apply length_map).
    cbn [and_then]. rewrite Hslice.
    pose proof (fit_rows_length _ _ _ Epb) as Lpb.
    pose proof (fit_rows_length _ _ _ Etb) as Ltb.
    rewrite length_map in Ltb.
    destruct rest as [|b' rest'].
    + simpl in Hrest. rewrite Hrest. simpl. rewrite !app_nil_r.
      reflexivity.
    + assert (Hfull : Nat.min batchsize r = batchsize).
      { destruct Hrest as [H0 _]. lia. }
      rewrite (IH (S i) _ (fp ++ pb) (ft ++ tb) (r - Nat.min batchsize r)).
      * cbn [sample_keys]. clear IH. unfold array, row in *.
        repeat case_fit; try reflexivity. now rewrite <- !app_assoc.
      * cbn [predictions]. now rewrite <- app_assoc.
      * cbn [targets]. now rewrite <- app_assoc.
      * rewrite length_app, Hlp, Lpb. unfold array, row in *.
        rewrite Hb, Hfull. lia.
      * rewrite length_app, Hlt, Ltb. unfold array, row in *.
        rewrite Htb, Hb, Hfull. lia.
      * exact Hrest.
Qed.

Lemma store_all_chunked loader batchsize n_samples n_tasks :
  chunked batchsize n_samples loader ->
  store_all loader batchsize n_samples n_tasks
  = match fit_rows n_tasks (List.concat (map pred loader)),
          fit_rows n_tasks
                   (map (map rescale) (List.concat (map target loader))) with
    | inr ps, inr ts =>
        inr {| predictions := ps; targets := ts;
               sample_keys := List.concat (map ID loader) |}
    | _, _ => inl ValueError
    end.
Proof.
  intros H. unfold store_all, zeros.
  apply (store_chunked (repeat 0%Q n_tasks) batchsize n_tasks loader 0
           {| predictions := repeat (repeat 0%Q n_tasks) n_samples;
              targets := repeat (repeat 0%Q n_tasks) n_samples;
              sample_keys := [] |} [] [] n_samples);
    try reflexivity. exact H.
Qed.

Lemma shaped_rows n_tasks loader :
  shaped n_tasks loader ->
  Forall (fun r => List.length r = n_tasks) (List.concat (map pred loader)) /\
  Forall (fun r => List.length r = n_tasks)
         (map (map rescale) (List.concat (map target loader))).
Proof.
  induction 1 as [|b rest [Hp Ht] _ [IHp IHt]]; simpl.
  - split; constructor.
  - split.
    + apply Forall_app. now split.
    + rewrite map_app. apply Forall_app. split; [|exact IHt].
      apply Forall_map. eapply Forall_impl; [|exact Ht].
      intros r Hr. simpl. now rewrite length_map.
Qed.

Lemma store_all_shaped loader batchsize n_samples n_tasks :
  chunked batchsize n_samples loader -> shaped n_tasks loader ->
  store_all loader batchsize n_samples n_tasks
  = inr {| predictions := List.concat (map pred loader);
           targets := map (map rescale) (List.concat (map target loader));
           sample_keys := List.concat (map ID loader) |}.
Proof.
  intros Hc Hs. rewrite (store_all_chunked _ _ _ n_tasks Hc).
  destruct (shaped_rows _ _ Hs) as [Hp Ht].
  now rewrite (fit_rows_shaped _ _ Hp), (fit_rows_shaped _ _ Ht).
Qed.

Lemma chunked_lengths batchsize loader : forall n,
  chunked batchsize n loader ->
  List.length (List.concat (map pred loader)) = n /\
  List.length (List.concat (map target loader)) = n /\
  List.length (List.concat (map ID loader)) = n.
Proof.
  induction loader as [|b rest IH]; simpl; intros n H.
  - subst n. auto.
  - destruct H as [Hn [Hb [Ht [Hi Hrest]]]].
    destruct (IH _ Hrest) as [H1 [H2 H3]].
    rewrite !length_app, H1, H2, H3, Hi, Ht, Hb. lia.
Qed.

(** [validate] on the batches of a loader. *)
Lemma validate_chunked roc_auc_score loader batchsize n_samples n_tasks :
  chunked batchsize n_samples loader ->
  validate roc_auc_score loader batchsize n_samples n_tasks
  = match fit_rows n_tasks (List.concat (map pred loader)),
          fit_rows n_tasks
                   (map (map rescale) (List.concat (map target loader))) with
    | inr ps, inr ts =>
        let keys := List.concat (map ID loader) in
        aucs <-- class_aucs roc_auc_score n_tasks
                            (map snd (grouped_targets (combine keys ts)))
                            (map snd (grouped_predictions n_tasks
                                                          (combine keys ps))) ;;;
        inr (np_mean aucs)
    | _, _ => inl ValueError
    end.
Proof.
  intros H. unfold validate.
  rewrite (store_all_chunked _ _ _ n_tasks H).
  destruct (chunked_lengths _ _ _ H) as [H1 [H2 H3]].
  destruct (fit_rows n_tasks (List.concat (map pred loader))) as [e|ps] eqn:Ep;
    [reflexivity|].
  destruct (fit_rows n_tasks
                     (map (map rescale) (List.concat (map target loader))))
    as [e|ts] eqn:Et; [reflexivity|].
  cbn [and_then predictions targets sample_keys].
  pose proof (fit_rows_length _ _ _ Ep) as Lp.
  pose proof (fit_rows_length _ _ _ Et) as Lt. rewrite length_map in Lt.
  unfold DataFrame, array, row in *.
  rewrite Lp, Lt, H1, H2, H3, Nat.eqb_refl. reflexivity.
Qed.

(** [validate] on batches of the arrays' width. *)
Lemma validate_shaped roc_auc_score loader batchsize n_samples n_tasks :
  chunked batchsize n_samples loader -> shaped n_tasks loader ->
  let keys := List.concat (map ID loader) in
  let dfp := combine keys (List.concat (map pred loader)) in
  let dft := combine keys (map (map rescale) (List.concat (map target loader))) in
  validate roc_auc_score loader batchsize n_samples n_tasks
  = (aucs <-- class_aucs roc_auc_score n_tasks
                         (map snd (grouped_targets dft))
                         (map snd (grouped_predictions n_tasks dfp)) ;;;
     inr (np_mean aucs)).
Proof.
  intros Hc Hs. cbv zeta. rewrite (validate_chunked _ _ _ _ _ Hc).
  destruct (shaped_rows _ _ Hs) as [Hp Ht].
  now rewrite (fit_rows_shaped _ _ Hp), (fit_rows_shaped _ _ Ht).
Qed.

(** The AUC of a class depends on the predictions of the selected samples
    only. *)
Lemma class_auc_rows_selected roc_auc_score targets predictions predictions' i :
  let t := fun j => nth i (nth j targets []) 0%Q in
  let rows := seq 0 (List.length targets) in
  let selected := filter (fun j => Qeq_bool (t j) 0) rows
                  ++ filter (fun j => Qeq_bool (t j) 1) rows in
  (forall j, In j selected ->
             nth i (nth j predictions []) 0%Q = nth i (nth j predictions' []) 0%Q) ->
  class_auc roc_auc_score targets predictions i
  = class_auc roc_auc_score targets predictions' i.
Proof.
  cbv zeta. intros H. rewrite !class_auc_rows. cbv zeta.
  destruct (existsb _ _ && existsb _ _); [|reflexivity].
  now rewrite (map_ext_in _ _ _ H).
Qed.

(** C8.  On the batches of a loader, outputs and targets being as wide as
    the arrays, the stored targets are the raw targets rescaled by
    [t / 2 + 0.5], which sends -1 to 0, +1 to 1 and 0 to 0.5; a grouped
    target row is one of the stored rows.  The samples selected for a
    class are those whose target in its column is 0 or 1, a sample with
    another target not being among them.  The AUC of the class is 0.5
    unless the column holds a 0 and a 1; it is then the score of the
    targets and predictions of the selected samples, or 0.5 when the score
    raises [ValueError]; it does not depend on the prediction of any other
    sample. *)
Theorem targets_rescaled_and_selected :
  (forall loader batchsize n_samples n_tasks,
      chunked batchsize n_samples loader -> shaped n_tasks loader ->
      exists st,
        store_all loader batchsize n_samples n_tasks = inr st /\
        targets st
        = map (map (fun t => (t / 2 + (1 # 2))%Q))
              (List.concat (map target loader))) /\
  (forall t, rescale t = (t / 2 + (1 # 2))%Q) /\
  (rescale (-1) == 0)%Q /\ (rescale 1 == 1)%Q /\ (rescale 0 == 1 # 2)%Q /\
  (forall df r, In r (map snd (grouped_targets df)) -> In r (map snd df)) /\
  (forall roc_auc_score targets predictions i,
      let t := fun j => nth i (nth j targets []) 0%Q in
      let p := fun j => nth i (nth j predictions []) 0%Q in
      let rows := seq 0 (List.length targets) in
      let selected := filter (fun j => Qeq_bool (t j) 0) rows
                      ++ filter (fun j => Qeq_bool (t j) 1) rows in
      (forall j, In j selected <->
                 j < List.length targets /\ ((t j == 0)%Q \/ (t j == 1)%Q)) /\
      (forall j, ~ (t j == 0)%Q -> ~ (t j == 1)%Q -> ~ In j selected) /\
      class_auc roc_auc_score targets predictions i
      = (if existsb (fun j => Qeq_bool (t j) 0) rows
            && existsb (fun j => Qeq_bool (t j) 1) rows
         then match roc_auc_score (map t selected) (map p selected) with
              | inl ValueError => inr (1 # 2)%Q
              | inl e => inl e
              | inr v => inr v
              end
         else inr (1 # 2)%Q) /\
      (forall predictions',
          (forall j, In j selected ->
                     nth i (nth j predictions []) 0%Q
                     = nth i (nth j predictions' []) 0%Q) ->
          class_auc roc_auc_score targets predictions i
          = class_auc roc_auc_score targets predictions' i)).
Proof.
  split; [|split; [|split; [|split; [|split; [|split]]]]].
  - intros loader batchsize n_samples n_tasks Hc Hs.
    rewrite (store_all_shaped _ _ _ _ Hc Hs). eexists. split; reflexivity.
  - reflexivity.
  - now vm_compute.
  - now vm_compute.
  - now vm_compute.
  - exact grouped_targets_stored.
  - intros roc targets predictions i t p rows selected.
    split; [|split; [|split]].
    + intros j. apply selected_iff.
    + intros j H0 H1 Hin. apply selected_iff in Hin. tauto.
    + apply class_auc_rows.
    + intros predictions' H. now apply class_auc_rows_selected.
Qed.

(** *** The statements at concrete inputs *)

Lemma views_grouped_by_key_witness :
  group_key "p1-w1-v1" = "p1-w1"%string /\
  group_key "p1-w1" = "p1-w1"%string /\
  group_key "p1" = "p1"%string /\
  exists keys,
    StronglySorted OrdersEx.String_as_OT.lt keys /\
    (forall k, In k keys <->
               exists x, In x view_predictions /\ group_key (fst x) = k) /\
    grouped_predictions 2 view_predictions
    = map (fun k =>
             let rows :=
               map snd (filter (fun x => String.eqb (group_key (fst x)) k)
                               view_predictions) in
             (k, map (fun j =>
                        (fold_right Qplus 0 (map (fun r => nth j r 0) rows)
                         / inject_Z (Z.of_nat (List.length rows)))%Q)
                     (seq 0 2))) keys /\
    grouped_targets view_predictions
    = map (fun k =>
             (k, hd [] (map snd (filter (fun x => String.eqb (group_key (fst x)) k)
                                        view_predictions)))) keys.
Proof.
  destruct (views_grouped_by_key 2 view_predictions)
    as [Hthree [Htwo [Hone Hgroups]]].
  split; [|split; [|split; [|exact Hgroups]]].
  - apply (Hthree "p1" "w1" "v1")%string; simpl; intuition discriminate.
  - apply (Htwo "p1" "w1")%string; simpl; intuition discriminate.
  - apply (Hone "p1")%string; simpl; intuition discriminate.
Defined.

Lemma class_auc_fallback_witness :
  nth 1 [1; 1 # 2]%Q 0%Q = (1 # 2)%Q /\
  nth 0 [1 # 2; 1 # 2]%Q 0%Q = (1 # 2)%Q /\
  nth 0 [1; 1 # 2]%Q 0%Q = 1%Q.
Proof.
  assert (H : class_aucs pairwise_auc 2 well_targets well_predictions
              = inr [1; 1 # 2]%Q) by reflexivity.
  assert (R : class_aucs refusing_score 2 well_targets well_predictions
              = inr [1 # 2; 1 # 2]%Q) by reflexivity.
  destruct (class_auc_fallback pairwise_auc 2 well_targets well_predictions
                               _ 1 H) as [Hguard _]; [lia|].
  destruct (class_auc_fallback refusing_score 2 well_targets well_predictions
                               _ 0 R) as [_ [Herror _]]; [lia|].
  destruct (class_auc_fallback pairwise_auc 2 well_targets well_predictions
                               _ 0 H) as [_ [_ [Hscore _]]]; [lia|].
  split; [|split].
  - apply Hguard. intros [_ [[|[|j]] [Hj E]]]; simpl in *.
    + discriminate E.
    + discriminate E.
    + lia.
  - apply Herror. reflexivity.
  - apply (Hscore 1%Q).
    + exists 1. split; [simpl; lia | reflexivity].
    + exists 0. split; [simpl; lia | reflexivity].
    + reflexivity.
Defined.

Lemma targets_rescaled_and_selected_witness :
  (exists st,
      store_all views 2 3 2 = inr st /\
      targets st = map (map rescale) [[1; -1]; [1; -1]; [-1; 0]]%Q) /\
  In [0; 1 # 2]%Q (map snd view_targets) /\
  ~ In 2 (filter (fun j => Qeq_bool (nth 0 (nth j mixed_targets []) 0%Q) 0)
                 (seq 0 3)
          ++ filter (fun j => Qeq_bool (nth 0 (nth j mixed_targets []) 0%Q) 1)
                    (seq 0 3)) /\
  class_auc pairwise_auc mixed_targets mixed_predictions 0
  = pairwise_auc [0; 1]%Q [0.1; 0.8]%Q /\
  class_auc pairwise_auc mixed_targets mixed_predictions 0
  = class_auc pairwise_auc mixed_targets moved_predictions 0.
Proof.
  destruct targets_rescaled_and_selected
    as [Hstore [_ [_ [_ [_ [Hrow Hclass]]]]]].
  destruct (Hclass pairwise_auc mixed_targets mixed_predictions 0)
    as [_ [Hout [Hauc Hsame]]].
  split; [|split; [|split; [|split]]].
  - destruct (Hstore views 2 3 2) as [st [Hst Ht]].
    + simpl. repeat split; lia.
    + repeat constructor.
    + exists st. split; [exact Hst|]. rewrite Ht. reflexivity.
  - apply Hrow. vm_compute. auto.
  - apply (Hout 2); simpl; intros E; discriminate E.
  - rewrite Hauc. reflexivity.
  - apply Hsame. intros j Hj. vm_compute in Hj.
    destruct Hj as [<-|[<-|[]]]; reflexivity.
Defined.

End ValidateSpec.

(** ** More on the epoch loop *)

Module MainMore.

Import Py Main Examples Observed MoreExamples MainSpec.

(** *** Ranges *)

Lemma range_empty a b : b <= a -> range a b = [].
Proof.
  intros H. unfold range. replace (Z.to_nat (b - a)) with 0%nat by lia.
  reflexivity.
Qed.

Lemma range_first a b : a < b -> range a b = a :: range (a + 1) b.
Proof.
  intros H. unfold range.
  replace (Z.to_nat (b - a)) with (S (Z.to_nat (b - (a + 1)))) by lia.
  simpl. f_equal; [lia|]. rewrite <- seq_shift, map_map.
  apply map_ext. intros i. lia.
Qed.

Lemma range_last a b : a <= b -> range a (b + 1) = range a b ++ [b].
Proof.
  intros H. unfold range.
  replace (Z.to_nat (b + 1 - a)) with (Z.to_nat (b - a) + 1)%nat by lia.
  rewrite seq_app, map_app. simpl. f_equal. f_equal. lia.
Qed.

(** *** Runs that train nothing *)

Lemma loop_nothing s w T member :
  T <= start_epoch s ->
  for_each (epoch_body s w) (range (start_epoch s) T) (entering s T member)
  = (entering s T member, inr tt).
Proof. intros H. now rewrite range_empty. Qed.

Lemma finally_unbound s w st :
  epoch st = None -> main_finally s w st = (st, inl (NameError "epoch")).
Proof. intros H. unfold main_finally, bind, read. now rewrite H. Qed.

(** X1.  A run whose schedule leaves nothing to train -
    [total_epochs <= start_epoch], as when a finished run is resumed -
    does not return: the loop body never binds [epoch], so the [finally]
    block raises [NameError] at its first line, before any summary writer
    is flushed or closed; nothing at all is logged. *)
Theorem nothing_to_train s w T :
  (ensemble_properties s = None /\ T = training_epochs s) \/
  (exists p, ensemble_properties s = Some p /\
             type_in p ensemble_types = true /\
             T = ensemble_size p * cycle_length p) ->
  T <= start_epoch s ->
  snd (run s w) = inl (NameError "epoch") /\
  trace (fst (run s w)) = [] /\
  total_epochs (fst (run s w)) = Some T.
Proof.
  intros H HT. unfold run, main, try_finally.
  change (main_try s w (initial s)) with (run_try s w).
  destruct H as [[Hp ->]|[p [Hp [Ht ->]]]].
  - rewrite (run_try_plain s w Hp), loop_nothing by assumption.
    rewrite finally_unbound by reflexivity. auto.
  - destruct (Z.eq_dec (cycle_length p) 0) as [Hc|Hc].
    + rewrite (run_try_zero_cycle s w p Hp Ht Hc).
      rewrite finally_unbound by reflexivity. auto.
    + rewrite (run_try_ensemble s w p Hp Ht Hc), loop_nothing by assumption.
      rewrite finally_unbound by reflexivity. auto.
Qed.

(** X2.  An ensemble with [cycle_length = 0] raises [ZeroDivisionError]
    when [m] is computed, after [total_epochs] was assigned; the
    [finally] block then fails on the unbound [epoch], so what leaves
    [main] is a [NameError], with nothing logged and [m] unbound. *)
Theorem zero_cycle_length s w p :
  ensemble_properties s = Some p -> type_in p ensemble_types = true ->
  cycle_length p = 0 ->
  snd (run_try s w) = inl ZeroDivisionError /\
  snd (run s w) = inl (NameError "epoch") /\
  trace (fst (run s w)) = [] /\
  m (fst (run s w)) = None.
Proof.
  intros Hp Ht Hc. unfold run, main, try_finally.
  change (main_try s w (initial s)) with (run_try s w).
  rewrite (run_try_zero_cycle s w p Hp Ht Hc).
  rewrite finally_unbound by reflexivity. auto.
Qed.


(** *** Runs that return *)

Lemma loop_last s w l : forall st st',
  for_each (epoch_body s w) l st = (st', inr tt) -> l <> [] ->
  epoch st' = Some (last l 0).
Proof.
  induction l as [|e l IH]; intros st st' H Hne; [congruence|].
  simpl in H. unfold bind in H.
  pose proof (body_epoch s w e st) as He.
  destruct (epoch_body s w e st) as [st1 [x|u]]; [discriminate|].
  cbn [fst] in He. destruct l as [|e' l'].
  - simpl in H. unfold ret in H. inversion H; subst. exact He.
  - rewrite (IH _ _ H) by discriminate. reflexivity.
Qed.

Lemma last_range a b : a < b -> last (range a b) 0 = b - 1.
Proof.
  intros H. replace b with ((b - 1) + 1) at 1 by lia.
  rewrite range_last by lia. apply last_last.
Qed.

Lemma close_summary_returned w n st st' :
  close_summary w n st = (st', inr tt) ->
  st' = log (Close n) (log (ExportScalarsToJson n) st).
Proof.
  unfold close_summary, bind, call.
  destruct (raises w (SExport n)); [discriminate|].
  destruct (raises w (SClose n)); [discriminate|].
  intros H. now inversion H.
Qed.

Lemma close_all_returned w names : forall st st',
  for_each (close_summary w) names st = (st', inr tt) ->
  trace st' = trace st ++ closing (epoch st) names /\
  epoch st' = epoch st /\ total_epochs st' = total_epochs st /\ m st' = m st.
Proof.
  induction names as [|n names IH]; intros st st' H; simpl in *.
  - unfold ret in H. inversion H; subst. now rewrite app_nil_r.
  - unfold bind in H.
    destruct (close_summary w n st) as [st1 [x|u]] eqn:E; [discriminate|].
    destruct u. apply close_summary_returned in E. subst st1.
    destruct (IH _ _ H) as [Htr [He [Ht Hm]]].
    rewrite Htr, He, Ht, Hm. cbn [log trace epoch total_epochs m].
    now rewrite <- !app_assoc.
Qed.

Lemma body_no_cleanup s w e st :
  Forall (fun x => ~ cleanup_event (snd x)) (trace st) ->
  Forall (fun x => ~ cleanup_event (snd x)) (trace (fst (epoch_body s w e st))).
Proof.
  intros H. run_body; cbn [fst trace]; try assumption;
    repeat (apply Forall_app; split); try assumption;
    repeat constructor; cbn [snd cleanup_event]; tauto.
Qed.

Lemma run_try_no_cleanup s w :
  Forall (fun x => ~ cleanup_event (snd x)) (trace (fst (run_try s w))).
Proof.
  apply (run_try_invariant
           (fun st => Forall (fun x => ~ cleanup_event (snd x)) (trace st))).
  - intros st _ _ -> _. constructor.
  - intros e st. apply body_no_cleanup.
Qed.

Lemma trained_closing st st' ep names :
  trace st' = trace st ++ closing ep names -> trained st' = trained st.
Proof.
  intros H. unfold trained. rewrite H, flat_map_app.
  assert (E : flat_map (fun x => match snd x with Train e => [e] | _ => [] end)
                       (closing ep names) = []).
  { clear H. unfold closing. induction names as [|n names IH]; simpl; auto. }
  rewrite E. apply app_nil_r.
Qed.

(** X3.  When [main] returns normally, at least one epoch was trained,
    the epochs trained are exactly [range(start_epoch, total_epochs)],
    [epoch] ends at [total_epochs - 1], no abort checkpoint was written,
    and what the [finally] block did is to flush and close every summary
    writer once, in order. *)
Theorem normal_return s w :
  snd (run s w) = inr tt ->
  exists T,
    total_epochs (fst (run s w)) = Some T /\
    start_epoch s < T /\
    epoch (fst (run s w)) = Some (T - 1) /\
    trained (fst (run s w)) = range (start_epoch s) T /\
    trace (fst (run s w))
    = trace (fst (run_try s w)) ++ closing (Some (T - 1)) (summaries s) /\
    ~ In user_abort (events (fst (run s w))).
Proof.
  unfold run, main, try_finally.
  change (main_try s w (initial s)) with (run_try s w).
  destruct (run_try s w) as [st r] eqn:Hrun.
  destruct (main_finally s w st) as [st' [x|[]]] eqn:Hfin; [discriminate|].
  cbn [fst snd]. intros ->.
  destruct (run_try_cases s w) as [[T [mm E]]|[st1 [x [E _]]]];
    [|rewrite E in Hrun; discriminate].
  rewrite E in Hrun.
  destruct (Z_lt_le_dec (start_epoch s) T) as [Hlt|Hle].
  2:{ rewrite loop_nothing in Hrun by assumption. inversion Hrun; subst.
      rewrite finally_unbound in Hfin by reflexivity. discriminate. }
  assert (Hepoch : epoch st = Some (T - 1)).
  { rewrite (loop_last _ _ _ _ _ Hrun), last_range by
        (try lia; rewrite range_first by lia; discriminate).
    reflexivity. }
  assert (Htotal : total_epochs st = Some T).
  { pose proof (loop_total s w (range (start_epoch s) T) (entering s T mm)) as H.
    now rewrite Hrun in H. }
  assert (Htrained : trained st = range (start_epoch s) T).
  { destruct (loop_trained s w (range (start_epoch s) T) (entering s T mm))
      as [done [rest [Hl [Ht Hn]]]].
    rewrite Hrun in Ht, Hn. cbn [fst snd] in Ht, Hn.
    rewrite (Hn eq_refl), app_nil_r in Hl. rewrite Ht, Hl. reflexivity. }
  unfold main_finally, bind, read in Hfin. rewrite Hepoch, Htotal in Hfin.
  replace (T - 1 + 1 =? T) with true in Hfin by (symmetry; apply Z.eqb_eq; lia).
  cbn [negb] in Hfin. unfold ret in Hfin.
  destruct (close_all_returned _ _ _ _ Hfin) as [Htr [He' [Ht' _]]].
  rewrite Hepoch in Htr, He'. rewrite Htotal in Ht'.
  exists T.
  split; [exact Ht'|]. split; [exact Hlt|]. split; [exact He'|].
  split; [rewrite (trained_closing _ _ _ _ Htr); exact Htrained|].
  split; [exact Htr|].
  unfold events. rewrite Htr, map_app, in_app_iff. intros [Hin|Hin].
  - apply in_map_iff in Hin. destruct Hin as [y [Hy Hin]].
    pose proof (run_try_no_cleanup s w) as Hno. rewrite E, Hrun in Hno.
    cbn [fst] in Hno. rewrite Forall_forall in Hno.
    apply (Hno y Hin). rewrite Hy. exact I.
  - clear -Hin. unfold closing in Hin.
    induction (summaries s) as [|n names IH]; simpl in Hin.
    + exact Hin.
    + destruct Hin as [H|[H|H]]; try discriminate H. now apply IH.
Qed.


(** X4.  When an exception [x] leaves the loop before the last epoch and
    saving the abort checkpoint itself raises [y], it is [y] that leaves
    [main]: [x] is lost, and no summary writer is flushed or closed (the
    trace is the one of the [try] block). *)
Theorem failed_abort_save s w st x e T y :
  run_try s w = (st, inl x) -> epoch st = Some e ->
  total_epochs st = Some T -> e + 1 <> T ->
  raises w SAbortSave = Some y ->
  run s w = (st, inl y).
Proof.
  intros Hrun He HT Hne Hy. unfold run, main, try_finally.
  change (main_try s w (initial s)) with (run_try s w). rewrite Hrun.
  unfold main_finally, bind, read, call. rewrite He, HT.
  apply Z.eqb_neq in Hne. rewrite Hne. cbn [negb]. rewrite Hy. reflexivity.
Qed.

(** *** Ensemble members *)

Lemma saved_members_app st st' extra :
  trace st' = trace st ++ extra -> Forall plain_event extra ->
  saved_members st' = saved_members st.
Proof.
  intros H Hp. unfold saved_members. rewrite H, flat_map_app.
  assert (E : flat_map (fun x => match snd x with
                                 | SaveEnsembleCheckpoint _ _ k => [k]
                                 | _ => []
                                 end) extra = []).
  { clear H. induction Hp as [|[ep ev] l Hx _ IH]; [reflexivity|].
    simpl. rewrite IH. destruct ev; try reflexivity.
    exfalso. apply Hx. exact I. }
  rewrite E. apply app_nil_r.
Qed.

Lemma validate_frame s w e st :
  m (fst (train_and_validate s w e st)) = m st /\
  epoch (fst (train_and_validate s w e st)) = epoch st /\
  exists extra,
    trace (fst (train_and_validate s w e st)) = trace st ++ extra /\
    Forall plain_event extra.
Proof.
  unfold train_and_validate, bind, call, read, read_best, set_performance,
    set_best_performance, ret, log.
  destruct (raises w (STrain e)); cbn [fst snd m epoch trace performance].
  { repeat split. exists []. now rewrite app_nil_r. }
  destruct (has_val s); cbn [fst snd m epoch trace performance].
  2:{ repeat split. eexists. split; [reflexivity|].
      repeat constructor. unfold plain_event. simpl. tauto. }
  destruct (raises w (SValidate e)); cbn [fst snd m epoch trace performance].
  { repeat split. eexists. split; [reflexivity|].
    repeat constructor. unfold plain_event. simpl. tauto. }
  destruct (raises w (SSaveCheckpoint e)); cbn [fst snd m epoch trace performance].
  - repeat split. eexists. split; [now rewrite <- app_assoc|].
    repeat constructor; unfold plain_event; simpl; tauto.
  - repeat split. eexists. split; [now rewrite <- !app_assoc|].
    repeat constructor; unfold plain_event; simpl; tauto.
Qed.


(** What the ensemble block of an epoch does: nothing to the members, or
    one save with the current index, which it then advances. *)
Lemma ensemble_checkpoint_cases s w e st :
  let st' := fst (ensemble_checkpoint s w e st) in
  (m st' = m st /\
   (exists extra, trace st' = trace st ++ extra /\ Forall plain_event extra) /\
   (snd (ensemble_checkpoint s w e st) = inr tt ->
    forall p, ensemble_properties s = Some p ->
              type_in p ensemble_types = true ->
              mem (e + 1) (checkpoints p) = false)) \/
  (exists p z perf extra,
      ensemble_properties s = Some p /\
      type_in p ensemble_types = true /\
      mem (e + 1) (checkpoints p) = true /\
      m st = Some z /\ m st' = Some (z + 1) /\
      trace st' = trace st
                  ++ (epoch st, SaveEnsembleCheckpoint perf "ensemble" z)
                  :: extra /\
      Forall plain_event extra).
Proof.
  unfold ensemble_checkpoint, bind, call, read, set_m, ret, log.
  assert (Hnil : exists extra, trace st = trace st ++ extra /\
                               Forall plain_event extra)
    by (exists []; now rewrite app_nil_r).
  destruct (ensemble_properties s) as [p|] eqn:Hp;
    [|left; cbn; repeat split; [exact Hnil | discriminate]].
  destruct (type_in p ensemble_types) eqn:Ht;
    [|left; cbn; repeat split; [exact Hnil | congruence]].
  destruct (mem (e + 1) (checkpoints p)) eqn:Hm;
    [|left; cbn; repeat split; [exact Hnil | congruence]].
  destruct (m st) as [z|] eqn:Hz;
    [|left; cbn; repeat split; [congruence | exact Hnil | discriminate]].
  destruct (performance st) as [perf|] eqn:Hperf;
    [|left; cbn; repeat split; [congruence | exact Hnil | discriminate]].
  destruct (raises w (SSaveEnsemble e)) eqn:Hs;
    [left; cbn; repeat split; [congruence | exact Hnil | discriminate]|].
  right. exists p, z, perf.
  destruct (type_in p ["deep_ensemble"%string]);
    [destruct (raises w (SReinit e))|];
    cbn [fst snd m trace epoch performance].
  - exists []. repeat split; try assumption. constructor.
  - exists [(epoch st, ReInitialiseModel)]. repeat split; try assumption.
    + now rewrite <- app_assoc.
    + repeat constructor. unfold plain_event. simpl. tauto.
  - exists []. repeat split; try assumption. constructor.
Qed.

Lemma epoch_body_steps s w e st :
  epoch_body s w e st
  = match train_and_validate s w e (fst (set_epoch e st)) with
    | (st1, inl x) => (st1, inl x)
    | (st1, inr _) => ensemble_checkpoint s w e st1
    end.
Proof. reflexivity. Qed.

(** One epoch, as seen by the members. *)
Lemma body_members s w e st :
  let st' := fst (epoch_body s w e st) in
  (m st' = m st /\
   (exists extra, trace st' = trace st ++ extra /\ Forall plain_event extra) /\
   (snd (epoch_body s w e st) = inr tt ->
    forall p, ensemble_properties s = Some p ->
              type_in p ensemble_types = true ->
              mem (e + 1) (checkpoints p) = false)) \/
  (exists p z perf before extra,
      ensemble_properties s = Some p /\
      type_in p ensemble_types = true /\
      mem (e + 1) (checkpoints p) = true /\
      m st = Some z /\ m st' = Some (z + 1) /\
      trace st' = trace st ++ before
                  ++ (Some e, SaveEnsembleCheckpoint perf "ensemble" z)
                  :: extra /\
      Forall plain_event before /\ Forall plain_event extra).
Proof.
  cbv zeta. rewrite epoch_body_steps.
  set (st0 := fst (set_epoch e st)).
  destruct (validate_frame s w e st0) as [Hm [He [before [Htr Hb]]]].
  change (m st0) with (m st) in Hm. change (epoch st0) with (Some e) in He.
  change (trace st0) with (trace st) in Htr.
  destruct (train_and_validate s w e st0) as [st1 [x|u]] eqn:E;
    cbn [fst snd] in *.
  - left. split; [exact Hm|]. split; [|intros H; discriminate H].
    exists before. split; assumption.
  - destruct (ensemble_checkpoint_cases s w e st1)
      as [[Hm' [[extra [Htr' He']] Hn]]|[p [z [perf [extra H]]]]].
    + left. split; [congruence|]. split; [|exact Hn].
      exists (before ++ extra). split.
      * rewrite Htr', Htr. now rewrite app_assoc.
      * apply Forall_app. now split.
    + right. destruct H as [Hp [Ht [Hmem [Hz [Hz' [Htr' He']]]]]].
      exists p, z, perf, before, extra. repeat split; try assumption.
      * congruence.
      * rewrite Htr', Htr, He. now rewrite <- app_assoc.
Qed.


Lemma saved_members_save st st' before ep perf name z extra :
  trace st' = trace st ++ before
              ++ (ep, SaveEnsembleCheckpoint perf name z) :: extra ->
  Forall plain_event before -> Forall plain_event extra ->
  saved_members st' = saved_members st ++ [z].
Proof.
  intros H Hb He.
  assert (E : forall l, Forall plain_event l ->
                        flat_map (fun x => match snd x with
                                           | SaveEnsembleCheckpoint _ _ k => [k]
                                           | _ => []
                                           end) l = []).
  { intros l Hl. induction Hl as [|[ep' ev] l Hx _ IH]; [reflexivity|].
    simpl. rewrite IH. destruct ev; try reflexivity.
    exfalso. apply Hx. exact I. }
  unfold saved_members. rewrite H, !flat_map_app. simpl.
  now rewrite (E _ Hb), (E _ He).
Qed.

Lemma finally_frame s w st :
  m (fst (main_finally s w st)) = m st /\
  best_performance (fst (main_finally s w st)) = best_performance st /\
  exists extra,
    trace (fst (main_finally s w st)) = trace st ++ extra /\
    Forall (fun x => cleanup_event (snd x)) extra.
Proof.
  set (kept := fun st' : locals =>
                 m st' = m st /\
                 best_performance st' = best_performance st /\
                 exists extra, trace st' = trace st ++ extra /\
                               Forall (fun x => cleanup_event (snd x)) extra).
  change (kept (fst (main_finally s w st))).
  assert (Hnil : kept st).
  { split; [reflexivity|]. split; [reflexivity|].
    exists []. now rewrite app_nil_r. }
  assert (Hloop : forall st0,
             kept st0 ->
             kept (fst (for_each (close_summary w) (summaries s) st0))).
  { intros st0 H0. apply (for_each_invariant kept); [|exact H0].
    intros n st' _ [Hm [Hb [extra [Htr Hp]]]].
    unfold close_summary, bind, call.
    destruct (raises w (SExport n)); unfold kept; cbn [fst log m trace];
      [split; [exact Hm | split; [exact Hb | exists extra; now split]]|].
    destruct (raises w (SClose n));
      cbn [fst log m trace epoch best_performance];
      (split; [exact Hm|]); (split; [exact Hb|]); rewrite Htr; eexists;
      (split; [rewrite <- ?app_assoc; reflexivity|]);
      repeat (apply Forall_app; split); try assumption;
      repeat constructor; simpl; tauto. }
  unfold main_finally, bind, read.
  destruct (epoch st) as [e|]; [|exact Hnil].
  destruct (total_epochs st) as [T|]; [|exact Hnil].
  destruct (negb (e + 1 =? T)).
  - unfold call. destruct (raises w SAbortSave); [exact Hnil|].
    assert (H : kept (log user_abort st)).
    { split; [reflexivity|]. split; [reflexivity|].
      exists [(epoch st, user_abort)]. split; [reflexivity|].
      repeat constructor. }
    apply Hloop in H.
    destruct (for_each (close_summary w) (summaries s) (log user_abort st))
      as [st' [x|u]]; exact H.
  - unfold ret. pose proof (Hloop st Hnil) as H.
    destruct (for_each (close_summary w) (summaries s) st) as [st' [x|u]];
      exact H.
Qed.

Lemma cleanup_plain l :
  Forall (fun x => cleanup_event (snd x)) l -> Forall plain_event l.
Proof.
  intros H. eapply Forall_impl; [|exact H]. intros [ep ev] Hx.
  unfold plain_event. destruct ev; simpl in *; tauto.
Qed.

Lemma body_sequence s w m0 e st :
  members_in_sequence m0 st ->
  members_in_sequence m0 (fst (epoch_body s w e st)).
Proof.
  intros [k [Hk [Hle Hs]]].
  destruct (body_members s w e st)
    as [[Hm [[extra [Htr Hp]] _]]|[p [z [perf [before [extra H]]]]]].
  - exists k. split; [congruence|]. split; [exact Hle|].
    now rewrite (saved_members_app _ _ _ Htr Hp).
  - destruct H as [_ [_ [_ [Hz [Hz' [Htr [Hb He]]]]]]].
    assert (z = k) by congruence. subst z.
    exists (k + 1). split; [exact Hz'|]. split; [lia|].
    rewrite (saved_members_save _ _ _ _ _ _ _ _ Htr Hb He), Hs.
    now rewrite range_last.
Qed.

Lemma run_sequence s w p :
  ensemble_properties s = Some p -> type_in p ensemble_types = true ->
  cycle_length p <> 0 ->
  exists k,
    m (fst (run s w)) = Some k /\
    Z.quot (start_epoch s) (cycle_length p) <= k /\
    saved_members (fst (run s w))
    = range (Z.quot (start_epoch s) (cycle_length p)) k.
Proof.
  intros Hp Ht Hc. rewrite run_fst.
  destruct (finally_frame s w (fst (run_try s w))) as [Hm [_ [extra [Htr Hpl]]]].
  rewrite Hm, (saved_members_app _ _ _ Htr (cleanup_plain _ Hpl)).
  rewrite (run_try_ensemble s w p Hp Ht Hc).
  apply (for_each_invariant
           (members_in_sequence (Z.quot (start_epoch s) (cycle_length p)))).
  - intros e st _. apply body_sequence.
  - eexists. split; [reflexivity|]. split; [lia|].
    now rewrite range_empty by lia.
Qed.


(** A loop over a range: [I e] holds when epoch [e] is entered, [P] at
    every exit. *)
Lemma for_each_range (I : Z -> locals -> Prop) (P : locals -> Prop)
      (body : Z -> M unit) b :
  (forall e st, e < b -> I e st -> P st ->
                P (fst (body e st)) /\
                (snd (body e st) = inr tt -> I (e + 1) (fst (body e st)))) ->
  forall n a st,
    Z.of_nat n = b - a -> I a st -> P st ->
    P (fst (for_each body (range a b) st)) /\
    (snd (for_each body (range a b) st) = inr tt ->
     I b (fst (for_each body (range a b) st))).
Proof.
  intros Hbody. induction n as [|n IH]; intros a st Hn Ha HP.
  - rewrite range_empty by lia. simpl. split; [exact HP|].
    intros _. replace b with a by lia. exact Ha.
  - rewrite range_first by lia. simpl. unfold bind.
    destruct (Hbody a st) as [HP' HI']; [lia | assumption | assumption |].
    destruct (body a st) as [st' [x|u]]; cbn [fst snd] in *.
    + split; [exact HP' | discriminate].
    + destruct u. apply IH; [lia | now apply HI' | exact HP'].
Qed.

Lemma boundary_member c cp e :
  0 < c -> e + 1 = c * cp -> e / c = cp - 1 /\ (e + 1) / c = cp.
Proof.
  intros Hc He. split.
  - symmetry. apply (Z.div_unique e c (cp - 1) (c - 1)); lia.
  - rewrite He. rewrite Z.mul_comm. apply Z.div_mul. lia.
Qed.

Lemma between_boundaries p e :
  0 < cycle_length p -> 0 <= e ->
  e + 1 <= ensemble_size p * cycle_length p ->
  mem (e + 1) (checkpoints p) = false ->
  (e + 1) / cycle_length p = e / cycle_length p.
Proof.
  intros Hc He Hle Hm. set (c := cycle_length p) in *.
  pose proof (Z.div_mod (e + 1) c ltac:(lia)) as Hdm.
  pose proof (Z.mod_pos_bound (e + 1) c Hc) as Hb.
  destruct (Z.eq_dec ((e + 1) mod c) 0) as [H0|H0].
  - exfalso. assert (Ht : mem (e + 1) (checkpoints p) = true).
    { apply mem_checkpoints. exists ((e + 1) / c). fold c. split; [|lia].
      assert (0 < (e + 1) / c) by nia. split; [lia|].
      assert ((e + 1) / c * c <= ensemble_size p * c) by lia.
      nia. }
    congruence.
  - apply (Z.div_unique e c ((e + 1) / c) ((e + 1) mod c - 1)); lia.
Qed.

Lemma forall_plain_closes p l :
  Forall plain_event l -> Forall (member_closes_cycle p) l.
Proof.
  intros H. eapply Forall_impl; [|exact H]. intros [ep ev] Hx.
  unfold member_closes_cycle, plain_event in *. destruct ev; simpl in *; tauto.
Qed.

Lemma body_cycle s w p e st :
  ensemble_properties s = Some p -> type_in p ensemble_types = true ->
  0 < cycle_length p ->
  e < ensemble_size p * cycle_length p ->
  0 <= e /\ m st = Some (e / cycle_length p) ->
  Forall (member_closes_cycle p) (trace st) ->
  Forall (member_closes_cycle p) (trace (fst (epoch_body s w e st))) /\
  (snd (epoch_body s w e st) = inr tt ->
   0 <= e + 1 /\
   m (fst (epoch_body s w e st)) = Some ((e + 1) / cycle_length p)).
Proof.
  intros Hp Ht Hc HT [He Hm] Hall.
  destruct (body_members s w e st)
    as [[Hm' [[extra [Htr Hpl]] Hn]]|[p' [z [perf [before [extra H]]]]]].
  - split.
    + rewrite Htr. apply Forall_app. split; [exact Hall|].
      now apply forall_plain_closes.
    + intros Hr. split; [lia|]. rewrite Hm', Hm. f_equal. symmetry.
      apply between_boundaries; try assumption; try lia.
      exact (Hn Hr p Hp Ht).
  - destruct H as [Hp' [_ [Hmem [Hz [Hz' [Htr [Hb Hex]]]]]]].
    assert (p' = p) by congruence. subst p'.
    assert (z = e / cycle_length p) by congruence. subst z.
    apply mem_checkpoints in Hmem. destruct Hmem as [cp [Hcp Hcycle]].
    destruct (boundary_member _ _ _ Hc Hcycle) as [Hq Hq'].
    split.
    + rewrite Htr. apply Forall_app. split; [exact Hall|].
      apply Forall_app. split; [now apply forall_plain_closes|].
      constructor; [|now apply forall_plain_closes].
      unfold member_closes_cycle. cbn [fst snd]. split; [reflexivity|].
      split; [lia|]. exists e. split; [reflexivity|]. rewrite Hq. lia.
    + intros _. split; [lia|]. rewrite Hz', Hq, Hq'. f_equal. lia.
Qed.

Lemma loop_cycle s w p :
  ensemble_properties s = Some p -> type_in p ensemble_types = true ->
  0 < cycle_length p -> 0 <= start_epoch s ->
  Forall (member_closes_cycle p) (trace (fst (run_try s w))) /\
  (snd (run_try s w) = inr tt ->
   start_epoch s <= ensemble_size p * cycle_length p ->
   m (fst (run_try s w)) = Some (ensemble_size p)).
Proof.
  intros Hp Ht Hc Hs.
  rewrite (run_try_ensemble s w p Hp Ht) by lia.
  set (T := ensemble_size p * cycle_length p).
  set (st0 := entering s T (Some (Z.quot (start_epoch s) (cycle_length p)))).
  destruct (Z_le_gt_dec (start_epoch s) T) as [Hle|Hgt].
  - destruct (for_each_range
                (fun e st => 0 <= e /\ m st = Some (e / cycle_length p))
                (fun st => Forall (member_closes_cycle p) (trace st))
                (epoch_body s w) T
                (fun e st HT HI HP => body_cycle s w p e st Hp Ht Hc HT HI HP)
                (Z.to_nat (T - start_epoch s)) (start_epoch s) st0)
      as [HP HI].
    + lia.
    + split; [exact Hs|]. cbn. f_equal. apply Z.quot_div_nonneg; lia.
    + constructor.
    + split; [exact HP|]. intros Hr _. destruct (HI Hr) as [_ Hm].
      rewrite Hm. f_equal. unfold T. apply Z.div_mul. lia.
  - rewrite range_empty by lia. cbn. split; [constructor|]. intros _ H. lia.
Qed.


(** X5.  In an ensemble run, whatever raises, the member indices of the
    saved ensemble checkpoints are consecutive, starting at
    [int(start_epoch / cycle_length)], none skipped and none used twice,
    and [m] is the index the next save would use. *)
Theorem members_saved_in_sequence s w p :
  ensemble_properties s = Some p -> type_in p ensemble_types = true ->
  cycle_length p <> 0 ->
  exists k,
    m (fst (run s w)) = Some k /\
    Z.quot (start_epoch s) (cycle_length p) <= k /\
    saved_members (fst (run s w))
    = range (Z.quot (start_epoch s) (cycle_length p)) k.
Proof. apply run_sequence. Qed.

(** X6.  With [cycle_length > 0] and [start_epoch >= 0], every ensemble
    checkpoint a run saves is named ["ensemble"], has a member index [k]
    with [0 <= k < ensemble_size], and is saved in the last epoch of
    cycle [k]: epoch [e] with [e + 1 = cycle_length * (k + 1)] - also
    when the run was resumed in the middle of a cycle. *)
Theorem member_saved_at_cycle_end s w p ep perf name k :
  ensemble_properties s = Some p -> type_in p ensemble_types = true ->
  0 < cycle_length p -> 0 <= start_epoch s ->
  In (ep, SaveEnsembleCheckpoint perf name k) (trace (fst (run s w))) ->
  name = "ensemble"%string /\ 0 <= k < ensemble_size p /\
  exists e, ep = Some e /\ e + 1 = cycle_length p * (k + 1).
Proof.
  intros Hp Ht Hc Hs Hin. rewrite run_fst in Hin.
  destruct (finally_frame s w (fst (run_try s w))) as [_ [_ [extra [Htr Hpl]]]].
  rewrite Htr in Hin.
  assert (H : Forall (member_closes_cycle p) (trace (fst (run_try s w)) ++ extra)).
  { apply Forall_app. split.
    - apply (loop_cycle s w p Hp Ht Hc Hs).
    - apply forall_plain_closes. now apply cleanup_plain. }
  rewrite Forall_forall in H. exact (H _ Hin).
Qed.

Lemma returned_try s w :
  snd (run s w) = inr tt ->
  snd (run_try s w) = inr tt /\ epoch (fst (run_try s w)) <> None.
Proof.
  unfold run, main, try_finally.
  change (main_try s w (initial s)) with (run_try s w).
  destruct (run_try s w) as [st r].
  destruct (main_finally s w st) as [st' [x|[]]] eqn:Hfin; [discriminate|].
  cbn [fst snd]. intros ->. split; [reflexivity|]. intros He.
  rewrite finally_unbound in Hfin by assumption. discriminate.
Qed.

(** X7.  An ensemble run that returns normally has saved the members
    [start_epoch // cycle_length], ..., [ensemble_size - 1], each once and
    in order, and ends with [m = ensemble_size]. *)
Theorem completed_ensemble s w p :
  ensemble_properties s = Some p -> type_in p ensemble_types = true ->
  0 < cycle_length p -> 0 <= start_epoch s ->
  snd (run s w) = inr tt ->
  m (fst (run s w)) = Some (ensemble_size p) /\
  saved_members (fst (run s w))
  = range (start_epoch s / cycle_length p) (ensemble_size p).
Proof.
  intros Hp Ht Hc Hs Hr.
  destruct (returned_try s w Hr) as [Htry Hep].
  assert (Hm : m (fst (run s w)) = Some (ensemble_size p)).
  { rewrite run_fst.
    destruct (finally_frame s w (fst (run_try s w))) as [Hm _]. rewrite Hm.
    apply (loop_cycle s w p Hp Ht Hc Hs); [exact Htry|].
    destruct (epoch (fst (run_try s w))) as [e|] eqn:He; [|congruence].
    destruct (run_try_epoch_total s w (fst (run_try s w)) (snd (run_try s w)) e)
      as [T [HT Hin]]; [now destruct (run_try s w) | exact He |].
    assert (T = ensemble_size p * cycle_length p).
    { rewrite (run_try_ensemble s w p Hp Ht) in HT by lia.
      rewrite loop_total in HT. cbn in HT. congruence. }
    lia. }
  split; [exact Hm|].
  destruct (run_sequence s w p Hp Ht ltac:(lia)) as [k [Hk [_ Hsaved]]].
  rewrite Hsaved. rewrite Hm in Hk. inversion Hk; subst k.
  f_equal. apply Z.quot_div_nonneg; lia.
Qed.


(** *** Regular checkpoints *)

Lemma checkpointed_app st st' extra :
  trace st' = trace st ++ extra -> Forall not_regular extra ->
  checkpointed st' = checkpointed st /\ flagged_best st' = flagged_best st.
Proof.
  intros H Hp. unfold checkpointed, flagged_best. rewrite H, !flat_map_app.
  assert (E : flat_map (fun x => match snd x with
                                 | SaveCheckpoint None p _ => [p]
                                 | _ => []
                                 end) extra = [] /\
              flat_map (fun x => match snd x with
                                 | SaveCheckpoint None p true => [p]
                                 | _ => []
                                 end) extra = []).
  { clear H. induction Hp as [|[ep ev] l Hx _ [IH1 IH2]]; [split; reflexivity|].
    simpl. rewrite IH1, IH2. unfold not_regular in Hx.
    destruct ev as [| |[f|] q b| | | |]; simpl in *; try tauto. }
  destruct E as [E1 E2]. rewrite E1, E2, !app_nil_r. split; reflexivity.
Qed.

Lemma sorted_snoc (l : list Q) (p : Q) :
  StronglySorted Qlt l -> Forall (fun q => (q < p)%Q) l ->
  StronglySorted Qlt (l ++ [p]).
Proof.
  induction l as [|a l IH]; simpl; intros Hs Hall.
  - repeat constructor.
  - apply StronglySorted_inv in Hs. destruct Hs as [Hs Ha].
    constructor.
    + apply IH; [exact Hs | now inversion Hall].
    + apply Forall_app. split; [exact Ha|]. constructor; [|constructor].
      now inversion Hall.
Qed.

Lemma best_tracked_raise b0 st st' q :
  best_tracked b0 st ->
  best_performance st' = max q (best_performance st) ->
  checkpointed st' = checkpointed st -> flagged_best st' = flagged_best st ->
  best_tracked b0 st'.
Proof.
  intros [H0 [H1 [H2 H3]]] Hb Hc Hf. unfold best_tracked.
  rewrite Hb, Hc, Hf.
  pose proof (max_upper q (best_performance st)) as Hup.
  split; [eapply Qle_trans; eassumption|].
  split; [|split; [|exact H3]];
    (eapply Forall_impl; [|eassumption]); intros a Ha; simpl in *;
    eapply Qle_trans; eassumption.
Qed.

Lemma best_tracked_save b0 st st' q :
  best_tracked b0 st ->
  best_performance st' = max q (best_performance st) ->
  checkpointed st' = checkpointed st ++ [q] ->
  flagged_best st'
  = flagged_best st ++ (if gt q (best_performance st) then [q] else []) ->
  best_tracked b0 st'.
Proof.
  intros [H0 [H1 [H2 H3]]] Hb Hc Hf. unfold best_tracked.
  rewrite Hb, Hc, Hf.
  pose proof (max_upper q (best_performance st)) as Hup.
  pose proof (max_upper_l q (best_performance st)) as Hq.
  assert (Hmono : forall l, Forall (fun p => (p <= best_performance st)%Q) l ->
                            Forall (fun p => (p <= max q (best_performance st))%Q) l).
  { intros l Hl. eapply Forall_impl; [|exact Hl]. intros a Ha. simpl in *.
    eapply Qle_trans; eassumption. }
  split; [eapply Qle_trans; eassumption|].
  split; [apply Forall_app; split; [now apply Hmono | now repeat constructor]|].
  destruct (gt q (best_performance st)) eqn:G.
  - apply gt_lt in G. split.
    + apply Forall_app. split; [now apply Hmono | now repeat constructor].
    + change (b0 :: flagged_best st ++ [q]) with ((b0 :: flagged_best st) ++ [q]).
      apply sorted_snoc; [exact H3|]. constructor.
      * eapply Qle_lt_trans; eassumption.
      * eapply Forall_impl; [|exact H2]. intros a Ha. simpl in *.
        eapply Qle_lt_trans; eassumption.
  - rewrite app_nil_r. split; [now apply Hmono | exact H3].
Qed.

Lemma best_tracked_same b0 st st' :
  best_tracked b0 st ->
  best_performance st' = best_performance st ->
  checkpointed st' = checkpointed st -> flagged_best st' = flagged_best st ->
  best_tracked b0 st'.
Proof.
  intros H Hb Hc Hf. unfold best_tracked in *. now rewrite Hb, Hc, Hf.
Qed.

Lemma validate_tracked b0 s w e st :
  best_tracked b0 st -> best_tracked b0 (fst (train_and_validate s w e st)).
Proof.
  intros H.
  unfold train_and_validate, bind, call, read, read_best, set_performance,
    set_best_performance, ret, log.
  destruct (raises w (STrain e));
    cbn [fst snd m epoch trace performance best_performance]; [exact H|].
  assert (Htrain : forall st1 ev,
             trace st1 = trace st ++ [(epoch st, ev)] ->
             not_regular (epoch st, ev) ->
             checkpointed st1 = checkpointed st /\
             flagged_best st1 = flagged_best st).
  { intros st1 ev Htr Hev. apply (checkpointed_app st st1 _ Htr).
    now repeat constructor. }
  destruct (has_val s); cbn [fst snd m epoch trace performance best_performance].
  2:{ eapply best_tracked_same; [exact H | reflexivity | |];
      eapply (Htrain _ (Train e)); try reflexivity; exact I. }
  destruct (raises w (SValidate e));
    cbn [fst snd m epoch trace performance best_performance].
  { eapply best_tracked_same; [exact H | reflexivity | |];
      eapply (Htrain _ (Train e)); try reflexivity; exact I. }
  assert (Hboth : forall st1,
             trace st1 = (trace st ++ [(epoch st, Train e)])
                         ++ [(epoch st, Validate ((e + 1) * train_size s))] ->
             checkpointed st1 = checkpointed st /\
             flagged_best st1 = flagged_best st).
  { intros st1 Htr. apply (checkpointed_app st st1
                             [(epoch st, Train e);
                              (epoch st, Validate ((e + 1) * train_size s))]).
    - now rewrite Htr, <- app_assoc.
    - repeat constructor. }
  destruct (raises w (SSaveCheckpoint e));
    cbn [fst snd m epoch trace performance best_performance].
  - eapply best_tracked_raise; [exact H | reflexivity | |];
      eapply Hboth; reflexivity.
  - set (mid := {| epoch := epoch st; total_epochs := total_epochs st;
                   m := m st; performance := performance st;
                   best_performance := best_performance st;
                   trace := (trace st ++ [(epoch st, Train e)])
                            ++ [(epoch st, Validate ((e + 1) * train_size s))] |}).
    destruct (Hboth mid eq_refl) as [Hc Hf].
    eapply best_tracked_save; [exact H | reflexivity | |].
    + unfold checkpointed in *. cbn [trace] in *.
      rewrite flat_map_app. simpl. now rewrite <- Hc.
    + unfold flagged_best in *. cbn [trace] in *.
      rewrite flat_map_app. simpl.
      rewrite <- Hf. destruct (gt _ _); reflexivity.
Qed.

Lemma ensemble_frame s w e st :
  best_performance (fst (ensemble_checkpoint s w e st)) = best_performance st /\
  exists extra,
    trace (fst (ensemble_checkpoint s w e st)) = trace st ++ extra /\
    Forall not_regular extra.
Proof.
  unfold ensemble_checkpoint, bind, call, read, set_m, ret, log.
  assert (Hnil : best_performance st = best_performance st /\
                 exists extra, trace st = trace st ++ extra /\
                               Forall not_regular extra).
  { split; [reflexivity|]. exists []. now rewrite app_nil_r. }
  destruct (ensemble_properties s) as [p|]; [|exact Hnil].
  destruct (type_in p ensemble_types); [|exact Hnil].
  destruct (mem (e + 1) (checkpoints p)); [|exact Hnil].
  destruct (m st) as [z|]; [|exact Hnil].
  destruct (performance st) as [perf|]; [|exact Hnil].
  destruct (raises w (SSaveEnsemble e)); [exact Hnil|].
  destruct (type_in p ["deep_ensemble"%string]);
    [destruct (raises w (SReinit e))|];
    cbn [fst snd m trace epoch performance best_performance];
    (split; [reflexivity|]); eexists;
    (split; [rewrite <- ?app_assoc; reflexivity|]);
    repeat constructor.
Qed.

Lemma body_tracked b0 s w e st :
  best_tracked b0 st -> best_tracked b0 (fst (epoch_body s w e st)).
Proof.
  intros H. rewrite epoch_body_steps.
  assert (H0 : best_tracked b0 (fst (set_epoch e st))) by exact H.
  apply (validate_tracked b0 s w e) in H0.
  destruct (train_and_validate s w e (fst (set_epoch e st))) as [st1 [x|u]];
    cbn [fst] in *; [exact H0|].
  destruct (ensemble_frame s w e st1) as [Hb [extra [Htr Hp]]].
  destruct (checkpointed_app _ _ _ Htr Hp) as [Hc Hf].
  exact (best_tracked_same b0 st1 _ H0 Hb Hc Hf).
Qed.

(** X8.  In every run, the final [best_performance] is at least the
    session's and at least the performance of every regular checkpoint
    saved, and the performances of the checkpoints flagged [is_best]
    rise strictly, the first one strictly above the session's best. *)
Theorem best_checkpoints_rise s w :
  (session_best_performance s <= best_performance (fst (run s w)))%Q /\
  Forall (fun p => (p <= best_performance (fst (run s w)))%Q)
         (checkpointed (fst (run s w))) /\
  StronglySorted Qlt (session_best_performance s :: flagged_best (fst (run s w))).
Proof.
  assert (H : best_tracked (session_best_performance s) (fst (run_try s w))).
  { apply (run_try_invariant (best_tracked (session_best_performance s))).
    - intros st _ _ Htr Hb. unfold best_tracked, checkpointed, flagged_best.
      rewrite Htr, Hb. simpl. split; [apply Qle_refl|].
      repeat constructor.
    - intros e st. apply body_tracked. }
  rewrite run_fst.
  destruct (finally_frame s w (fst (run_try s w))) as [_ [Hb [extra [Htr Hc]]]].
  assert (Hn : Forall not_regular extra).
  { eapply Forall_impl; [|exact Hc]. intros [ep ev] Hx. unfold not_regular.
    destruct ev as [| |[f|] q b| | | |]; simpl in *; tauto. }
  destruct (checkpointed_app _ _ _ Htr Hn) as [Hcp Hf].
  destruct (best_tracked_same _ _ _ H Hb Hcp Hf) as [H0 [H1 [_ H3]]].
  auto.
Qed.


(** *** The statements at concrete inputs *)

Lemma nothing_to_train_witness :
  snd (run finished quiet) = inl (NameError "epoch") /\
  trace (fst (run finished quiet)) = [] /\
  total_epochs (fst (run finished quiet)) = Some 3.
Proof.
  apply (nothing_to_train finished quiet 3).
  - left. split; reflexivity.
  - simpl. lia.
Defined.

Lemma zero_cycle_length_witness :
  snd (run_try zero_cycle quiet) = inl ZeroDivisionError /\
  snd (run zero_cycle quiet) = inl (NameError "epoch") /\
  trace (fst (run zero_cycle quiet)) = [] /\
  m (fst (run zero_cycle quiet)) = None.
Proof.
  apply (zero_cycle_length zero_cycle quiet
           {| ensemble_type := Some "deep_ensemble"%string;
              ensemble_size := 2; cycle_length := 0 |}); reflexivity.
Defined.

Lemma normal_return_witness :
  exists T,
    total_epochs (fst (run (plain 3) quiet)) = Some T /\
    start_epoch (plain 3) < T /\
    epoch (fst (run (plain 3) quiet)) = Some (T - 1) /\
    trained (fst (run (plain 3) quiet)) = range (start_epoch (plain 3)) T /\
    trace (fst (run (plain 3) quiet))
    = trace (fst (run_try (plain 3) quiet))
      ++ closing (Some (T - 1)) (summaries (plain 3)) /\
    ~ In user_abort (events (fst (run (plain 3) quiet))).
Proof. apply (normal_return (plain 3) quiet). reflexivity. Defined.

Lemma failed_abort_save_witness :
  run (plain 3) disk_full
  = (fst (run_try (plain 3) disk_full), inl RuntimeError).
Proof.
  apply (failed_abort_save (plain 3) disk_full _ KeyboardInterrupt 1 3).
  - reflexivity.
  - reflexivity.
  - reflexivity.
  - lia.
  - reflexivity.
Defined.

Lemma members_saved_in_sequence_witness :
  exists k,
    m (fst (run (ensemble "deep_ensemble") quiet)) = Some k /\
    Z.quot 0 2 <= k /\
    saved_members (fst (run (ensemble "deep_ensemble") quiet))
    = range (Z.quot 0 2) k.
Proof.
  apply (members_saved_in_sequence (ensemble "deep_ensemble") quiet
                                   (props "deep_ensemble")).
  - reflexivity.
  - reflexivity.
  - simpl. lia.
Defined.

Lemma member_saved_at_cycle_end_witness :
  "ensemble"%string = "ensemble"%string /\ 0 <= 0 < 2 /\
  exists e, Some 1 = Some e /\ e + 1 = 2 * (0 + 1).
Proof.
  apply (member_saved_at_cycle_end (ensemble "deep_ensemble") quiet
           (props "deep_ensemble") (Some 1) (validate_result quiet 1)
           "ensemble" 0).
  - reflexivity.
  - reflexivity.
  - simpl. lia.
  - simpl. lia.
  - vm_compute. do 6 right. left. reflexivity.
Defined.

Lemma completed_ensemble_witness :
  m (fst (run (ensemble "snapshot_ensemble") quiet)) = Some 2 /\
  saved_members (fst (run (ensemble "snapshot_ensemble") quiet))
  = range (0 / 2) 2.
Proof.
  apply (completed_ensemble (ensemble "snapshot_ensemble") quiet
                            (props "snapshot_ensemble")).
  - reflexivity.
  - reflexivity.
  - simpl. lia.
  - simpl. lia.
  - reflexivity.
Defined.

End MainMore.

(** ** More on the metric pipeline *)

Module ValidateMore.

Import Py Validate Examples MoreExamples ValidateSpec.
Local Open Scope nat_scope.

(** *** Shapes *)

Lemma assign_rows_shape n a b rows arr :
  a <= b ->
  match assign_rows n a b rows arr with
  | inl e => e = ValueError
  | inr arr' => List.length arr' = List.length arr
  end.
Proof.
  intros Hab. unfold assign_rows.
  set (lo := Nat.min a (List.length arr)).
  set (hi := Nat.min b (List.length arr)).
  destruct (fit_rows n rows) as [e|fitted] eqn:F; cbn [and_then].
  - exact (fit_rows_error _ _ _ F).
  - pose proof (fit_rows_length _ _ _ F) as L.
    destruct (List.length rows =? hi - lo) eqn:E.
    + apply Nat.eqb_eq in E.
      rewrite !length_app, length_firstn, length_skipn, L, E.
      unfold lo, hi. lia.
    + destruct (List.length rows =? 1); [|reflexivity].
      rewrite !length_app, length_firstn, length_skipn, repeat_length.
      unfold lo, hi. lia.
Qed.

Lemma store_shape batchsize n_tasks loader : forall i acc,
  match store batchsize n_tasks i loader acc with
  | inl e => e = ValueError
  | inr st =>
      List.length (predictions st) = List.length (predictions acc) /\
      List.length (targets st) = List.length (targets acc) /\
      sample_keys st = sample_keys acc ++ List.concat (map ID loader)
  end.
Proof.
  induction loader as [|b rest IH]; intros i acc; cbn [store].
  - simpl. now rewrite app_nil_r.
  - assert (Hle : i * batchsize <= (i + 1) * batchsize) by nia.
    pose proof (assign_rows_shape n_tasks _ _ (pred b) (predictions acc) Hle)
      as Hp.
    destruct (assign_rows n_tasks (i * batchsize) ((i + 1) * batchsize) (pred b)
                          (predictions acc)) as [e|ps]; [exact Hp|].
    pose proof (assign_rows_shape n_tasks _ _ (map (map rescale) (target b))
                                  (targets acc) Hle) as Ht.
    destruct (assign_rows n_tasks (i * batchsize) ((i + 1) * batchsize)
                          (map (map rescale) (target b)) (targets acc))
      as [e|ts]; [exact Ht|].
    cbn [and_then].
    specialize (IH (S i) {| predictions := ps; targets := ts;
                            sample_keys := sample_keys acc ++ ID b |}).
    destruct (store batchsize n_tasks (S i) rest _) as [e|st]; [exact IH|].
    cbn [predictions targets sample_keys] in IH.
    destruct IH as [H1 [H2 H3]]. rewrite H1, H2, H3, Hp, Ht.
    simpl. now rewrite <- app_assoc.
Qed.

Section WithScore.

Variable roc_auc_score : list Q -> list Q -> result Q.

(** X9.  [validate] raises [ValueError] whenever the sample IDs the loader
    yields are not exactly [n_samples = len(loader.dataset)] many: either
    a batch does not fit its slice of the arrays, or the data frame is
    refused because index and data differ in length. *)
Theorem validate_needs_every_id loader batchsize n_samples n_tasks :
  List.length (List.concat (map ID loader)) <> n_samples ->
  validate roc_auc_score loader batchsize n_samples n_tasks = inl ValueError.
Proof.
  intros Hne. unfold validate, store_all.
  pose proof (store_shape batchsize n_tasks loader 0
                {| predictions := zeros n_samples n_tasks;
                   targets := zeros n_samples n_tasks;
                   sample_keys := [] |}) as H.
  destruct (store batchsize n_tasks 0 loader _) as [e|st]; [now subst|].
  cbn [and_then predictions targets sample_keys] in *.
  destruct H as [Hp [_ Hk]]. unfold zeros in Hp. rewrite repeat_length in Hp.
  simpl in Hk. unfold DataFrame. rewrite Hp, Hk.
  destruct (Nat.eqb_spec n_samples (List.length (List.concat (map ID loader))));
    [congruence | reflexivity].
Qed.

(** X10.  The result of [validate] does not depend on how the samples are
    cut into batches: two loaders over the same samples, with any two
    batch sizes, give the same result. *)
Theorem validate_ignores_batching loader loader' batchsize batchsize'
        n_samples n_tasks :
  chunked batchsize n_samples loader ->
  chunked batchsize' n_samples loader' ->
  List.concat (map ID loader) = List.concat (map ID loader') ->
  List.concat (map pred loader) = List.concat (map pred loader') ->
  List.concat (map target loader) = List.concat (map target loader') ->
  validate roc_auc_score loader batchsize n_samples n_tasks
  = validate roc_auc_score loader' batchsize' n_samples n_tasks.
Proof.
  intros H H' Hi Hp Ht.
  rewrite (validate_chunked _ _ _ _ _ H), (validate_chunked _ _ _ _ _ H').
  cbv zeta. now rewrite Hi, Hp, Ht.
Qed.


(** *** The loop over the classes *)

Lemma class_auc_outcome targets predictions i :
  match class_auc roc_auc_score targets predictions i with
  | inl e => e <> ValueError /\ exists a b, roc_auc_score a b = inl e
  | inr v => v = (1 # 2)%Q \/ exists a b, roc_auc_score a b = inr v
  end.
Proof.
  unfold class_auc.
  destruct (any_eq 0%Q (column i targets) && any_eq 1%Q (column i targets));
    [|now left].
  destruct (roc_auc_score _ _) as [e|v] eqn:E.
  - destruct e; try (split; [discriminate | eauto]). now left.
  - right. eauto.
Qed.

Lemma class_aucs_loop_outcome targets predictions tasks : forall acc,
  match class_aucs_loop roc_auc_score targets predictions tasks acc with
  | inl e => e <> ValueError /\ exists a b, roc_auc_score a b = inl e
  | inr l =>
      exists vs, l = acc ++ vs /\ List.length vs = List.length tasks /\
                 Forall (fun v => v = (1 # 2)%Q \/
                                  exists a b, roc_auc_score a b = inr v) vs
  end.
Proof.
  induction tasks as [|i tasks IH]; intros acc; simpl.
  - exists []. rewrite app_nil_r. repeat split. constructor.
  - pose proof (class_auc_outcome targets predictions i) as Hi.
    destruct (class_auc roc_auc_score targets predictions i) as [e|v];
      cbn [and_then]; [exact Hi|].
    specialize (IH (acc ++ [v])).
    destruct (class_aucs_loop roc_auc_score targets predictions tasks
                              (acc ++ [v])) as [e|l]; [exact IH|].
    destruct IH as [vs [Hl [Hlen Hall]]].
    exists (v :: vs). rewrite <- app_assoc in Hl. split; [exact Hl|].
    split; [simpl; congruence|]. now constructor.
Qed.

(** X11.  The loop over the classes never fails with a [ValueError]: an
    exception that leaves it was raised by [roc_auc_score] and is of
    another kind.  When [ValueError] is all [roc_auc_score] ever raises,
    the loop returns one AUC per class. *)
Theorem class_loop_errors n_tasks targets predictions :
  (forall e, class_aucs roc_auc_score n_tasks targets predictions = inl e ->
             e <> ValueError /\ exists a b, roc_auc_score a b = inl e) /\
  ((forall a b e, roc_auc_score a b = inl e -> e = ValueError) ->
   exists l, class_aucs roc_auc_score n_tasks targets predictions = inr l /\
             List.length l = n_tasks).
Proof.
  unfold class_aucs.
  pose proof (class_aucs_loop_outcome targets predictions (seq 0 n_tasks) [])
    as H.
  destruct (class_aucs_loop roc_auc_score targets predictions
                            (seq 0 n_tasks) []) as [e|l].
  - split.
    + intros e' E. inversion E; subst. exact H.
    + intros Honly. destruct H as [Hne [a [b E]]].
      exfalso. exact (Hne (Honly a b e E)).
  - split; [discriminate|]. intros _. exists l. split; [reflexivity|].
    destruct H as [vs [-> [Hlen _]]]. simpl. now rewrite Hlen, length_seq.
Qed.

(** *** The mean AUC *)

Lemma total_bounds (l : list Q) :
  Forall (fun v => (0 <= v <= 1)%Q) l ->
  (0 <= total l <= inject_Z (Z.of_nat (List.length l)))%Q.
Proof.
  induction 1 as [|v l Hv _ IH]; simpl total; simpl List.length.
  - split; apply Qle_refl.
  - rewrite Nat2Z.inj_succ, <- Z.add_1_r, inject_Z_plus.
    change (inject_Z 1) with 1%Q. destruct Hv, IH. split; lra.
Qed.

Lemma average_bounds (l : list Q) :
  l <> [] -> Forall (fun v => (0 <= v <= 1)%Q) l ->
  (0 <= average l <= 1)%Q.
Proof.
  intros Hne Hall. destruct (total_bounds l Hall) as [H0 H1].
  unfold average.
  assert (Hpos : (0 < inject_Z (Z.of_nat (List.length l)))%Q).
  { change 0%Q with (inject_Z 0). rewrite <- Zlt_Qlt.
    destruct l; [congruence | simpl; lia]. }
  set (d := inject_Z (Z.of_nat (List.length l))) in *. clearbody d.
  set (t := total l) in *. clearbody t.
  split.
  - apply Qle_shift_div_l; [exact Hpos | now rewrite Qmult_0_l].
  - apply Qle_shift_div_r; [exact Hpos | now rewrite Qmult_1_l].
Qed.

(** X12.  When [roc_auc_score] returns values between 0 and 1, a
    validation that returns does so with [nan] exactly when there is no
    class, and otherwise with a mean AUC between 0 and 1. *)
Theorem mean_auc_range loader batchsize n_samples n_tasks r :
  (forall a b v, roc_auc_score a b = inr v -> (0 <= v <= 1)%Q) ->
  validate roc_auc_score loader batchsize n_samples n_tasks = inr r ->
  (n_tasks = 0 /\ r = None) \/
  (0 < n_tasks /\ exists v, r = Some v /\ (0 <= v <= 1)%Q).
Proof.
  intros Hroc. unfold validate.
  destruct (store_all loader batchsize n_samples n_tasks) as [e|st];
    [discriminate|]. cbn [and_then].
  destruct (DataFrame (predictions st) (sample_keys st)) as [e|dfp];
    [discriminate|]. cbn [and_then].
  destruct (DataFrame (targets st) (sample_keys st)) as [e|dft];
    [discriminate|]. cbn [and_then].
  unfold class_aucs.
  pose proof (class_aucs_loop_outcome
                (map snd (grouped_targets dft))
                (map snd (grouped_predictions n_tasks dfp))
                (seq 0 n_tasks) []) as H.
  destruct (class_aucs_loop roc_auc_score _ _ (seq 0 n_tasks) []) as [e|l];
    [discriminate|]. cbn [and_then].
  destruct H as [vs [-> [Hlen Hall]]]. simpl app. rewrite length_seq in Hlen.
  intros E. inversion E; subst r. clear E.
  destruct vs as [|v vs].
  - left. simpl in Hlen. now split.
  - right. split; [simpl in Hlen; lia|]. eexists. split; [reflexivity|].
    apply average_bounds; [discriminate|].
    eapply Forall_impl; [|exact Hall]. intros q [->|[a [b Hq]]].
    + split; discriminate.
    + exact (Hroc a b q Hq).
Qed.

Lemma average_constant (c : Q) n :
  0 < n -> (average (repeat c n) == c)%Q.
Proof.
  intros Hn. unfold average. rewrite repeat_length.
  assert (Ht : (total (repeat c n) == c * inject_Z (Z.of_nat n))%Q).
  { clear Hn. induction n as [|n IH].
    - change (inject_Z (Z.of_nat 0)) with 0%Q. simpl. ring.
    - cbn [repeat total fold_right] in *. rewrite IH.
      rewrite Nat2Z.inj_succ, <- Z.add_1_r, inject_Z_plus.
      change (inject_Z 1) with 1%Q. ring. }
  rewrite Ht. apply Qdiv_mult_l.
  intros H. change 0%Q with (inject_Z 0) in H.
  apply (proj1 (inject_Z_injective _ _)) in H. lia.
Qed.

Lemma class_aucs_loop_degenerate targets predictions tasks : forall acc,
  (forall i, In i tasks ->
             any_eq 0%Q (column i targets) && any_eq 1%Q (column i targets)
             = false) ->
  class_aucs_loop roc_auc_score targets predictions tasks acc
  = inr (acc ++ repeat (1 # 2)%Q (List.length tasks)).
Proof.
  induction tasks as [|i tasks IH]; intros acc H; simpl.
  - now rewrite app_nil_r.
  - rewrite (class_auc_guard_fails roc_auc_score targets predictions i)
      by (apply H; now left).
    cbn [and_then]. rewrite IH by (intros j Hj; apply H; now right).
    now rewrite <- app_assoc.
Qed.

(** X13.  When no class has both a target equal to 0 and one equal to 1,
    every class AUC is the fallback 0.5, whatever the predictions are and
    without [roc_auc_score] being consulted; the mean AUC is then 0.5 when
    there is a class, and [nan] when there is none. *)
Theorem single_class_columns n_tasks targets predictions :
  (forall i, i < n_tasks ->
     ~ ((exists j, j < List.length targets /\
                   (nth i (nth j targets []) 0 == 0)%Q) /\
        (exists j, j < List.length targets /\
                   (nth i (nth j targets []) 0 == 1)%Q))) ->
  class_aucs roc_auc_score n_tasks targets predictions
  = inr (repeat (1 # 2)%Q n_tasks) /\
  (n_tasks = 0 -> np_mean (repeat (1 # 2)%Q n_tasks) = None) /\
  (0 < n_tasks ->
   exists v, np_mean (repeat (1 # 2)%Q n_tasks) = Some v /\ (v == 1 # 2)%Q).
Proof.
  intros H. split; [|split].
  - unfold class_aucs. rewrite class_aucs_loop_degenerate.
    + now rewrite length_seq.
    + intros i Hi. apply in_seq in Hi. rewrite !any_eq_column.
      destruct (existsb _ _ && existsb _ _) eqn:G; [|reflexivity].
      exfalso. apply (H i); [lia|]. apply andb_true_iff in G.
      destruct G as [G0 G1].
      split; [exact (proj1 (holds_iff _ _ _) G0)
             | exact (proj1 (holds_iff _ _ _) G1)].
  - intros ->. reflexivity.
  - intros Hn. exists (average (repeat (1 # 2)%Q n_tasks)). split.
    + destruct n_tasks; [lia | reflexivity].
    + now apply average_constant.
Qed.

End WithScore.

(** *** Groups *)

Lemma sorted_keys_unique (l1 l2 : list string) :
  StronglySorted key_lt l1 -> StronglySorted key_lt l2 ->
  (forall k, In k l1 <-> In k l2) -> l1 = l2.
Proof.
  revert l2. induction l1 as [|a l1 IH]; intros l2 H1 H2 Hin.
  - destruct l2 as [|b l2]; [reflexivity|].
    exfalso. apply (Hin b). now left.
  - destruct l2 as [|b l2]; [exfalso; apply (Hin a); now left|].
    apply StronglySorted_inv in H1. destruct H1 as [Hs1 Ha].
    apply StronglySorted_inv in H2. destruct H2 as [Hs2 Hb].
    rewrite Forall_forall in Ha, Hb.
    assert (a = b).
    { destruct (proj1 (Hin a) (or_introl eq_refl)) as [E|Hin2]; [now subst|].
      destruct (proj2 (Hin b) (or_introl eq_refl)) as [E|Hin1]; [exact E|].
      exfalso. apply (key_lt_irrefl a).
      exact (key_lt_trans _ _ _ (Ha _ Hin1) (Hb _ Hin2)). }
    subst b. f_equal. apply IH; try assumption.
    intros k. split; intros Hk.
    + destruct (proj1 (Hin k) (or_intror Hk)) as [E|Hk']; [|exact Hk'].
      subst k. exfalso. exact (key_lt_irrefl _ (Ha _ Hk)).
    + destruct (proj2 (Hin k) (or_intror Hk)) as [E|Hk']; [|exact Hk'].
      subst k. exfalso. exact (key_lt_irrefl _ (Hb _ Hk)).
Qed.

(** X14.  Two frames with the same index - as the predictions and the
    targets of [validate] are - are grouped into the same keys in the
    same order, so row [j] of the grouped predictions and row [j] of the
    grouped targets belong to the same key; there are at most as many
    groups as samples. *)
Theorem groups_aligned n_cols (dfp dft : frame) :
  map fst dfp = map fst dft ->
  map fst (grouped_predictions n_cols dfp) = map fst (grouped_targets dft) /\
  List.length (grouped_predictions n_cols dfp) = List.length (grouped_targets dft) /\
  List.length (grouped_targets dft) <= List.length dft.
Proof.
  intros Hidx.
  destruct (grouping_spec n_cols dfp) as [kp [Hsp [Hkp [Hp _]]]].
  destruct (grouping_spec n_cols dft) as [kt [Hst [Hkt [_ Ht]]]].
  assert (E : kp = kt).
  { apply sorted_keys_unique; try assumption. intros k.
    rewrite Hkp, Hkt. split; intros [x [Hx Hk]].
    - assert (Hi : In (fst x) (map fst dft))
        by (rewrite <- Hidx; now apply in_map).
      apply in_map_iff in Hi. destruct Hi as [y [Hy Hin]].
      exists y. split; [exact Hin | congruence].
    - assert (Hi : In (fst x) (map fst dfp))
        by (rewrite Hidx; now apply in_map).
      apply in_map_iff in Hi. destruct Hi as [y [Hy Hin]].
      exists y. split; [exact Hin | congruence]. }
  subst kt. rewrite Hp, Ht, !map_map, !length_map. cbn [fst].
  split; [reflexivity|]. split; [reflexivity|].
  assert (Hnd : NoDup kp).
  { clear -Hsp. induction Hsp as [|a l Hs IH Ha]; constructor; [|exact IH].
    intros Hin. rewrite Forall_forall in Ha.
    exact (key_lt_irrefl _ (Ha _ Hin)). }
  rewrite <- (length_map (fun x => group_key (fst x)) dft).
  apply NoDup_incl_length; [exact Hnd|].
  intros k Hk. apply Hkt in Hk. destruct Hk as [x [Hx <-]].
  now apply (in_map (fun x => group_key (fst x))).
Qed.

Lemma add_row_perm k r gs :
  Permutation (List.concat (map snd (add_row k r gs)))
              (r :: List.concat (map snd gs)).
Proof.
  induction gs as [|[k0 rs] gs IH]; simpl.
  - reflexivity.
  - destruct (key_compare k k0); simpl.
    + rewrite <- app_assoc. simpl.
      apply Permutation_sym, Permutation_middle.
    + reflexivity.
    + rewrite IH. apply Permutation_sym, Permutation_middle.
Qed.

Lemma add_row_nonempty k r gs :
  Forall (fun g => snd g <> []) gs ->
  Forall (fun g => snd g <> []) (add_row k r gs).
Proof.
  induction gs as [|[k0 rs] gs IH]; simpl; intros H.
  - repeat constructor. discriminate.
  - inversion H; subst. destruct (key_compare k k0).
    + constructor; [|assumption]. simpl. now destruct rs.
    + constructor; [discriminate | assumption].
    + constructor; [assumption | now apply IH].
Qed.

(** X15.  Grouping loses and duplicates nothing: the rows of all groups
    together are the rows of the frame, each once, and no group is
    empty. *)
Theorem groups_partition key_of (df : frame) :
  Permutation (List.concat (map snd (groupby key_of df))) (map snd df) /\
  Forall (fun g => snd g <> []) (groupby key_of df).
Proof.
  unfold groupby.
  assert (H : forall gs,
             Forall (fun g => snd g <> []) gs ->
             Permutation
               (List.concat
                  (map snd (fold_left
                              (fun gs x => add_row (key_of (fst x)) (snd x) gs)
                              df gs)))
               (List.concat (map snd gs) ++ map snd df) /\
             Forall (fun g => snd g <> [])
                    (fold_left (fun gs x => add_row (key_of (fst x)) (snd x) gs)
                               df gs)).
  { induction df as [|x df IH]; intros gs Hne; simpl.
    - rewrite app_nil_r. now split.
    - destruct (IH (add_row (key_of (fst x)) (snd x) gs)) as [Hp Hn].
      { now apply add_row_nonempty. }
      split; [|exact Hn]. rewrite Hp, add_row_perm.
      apply Permutation_middle. }
  destruct (H [] (Forall_nil _)) as [Hp Hn]. now split.
Qed.

(** *** Keys *)

Lemma split_dash_free s : Forall dash_free (split dash s).
Proof.
  induction s as [|c s IH]; simpl.
  - repeat constructor.
  - destruct (Ascii.eqb_spec c dash) as [->|Hc].
    + constructor; [exact I | exact IH].
    + destruct (split dash s) as [|t ts]; [repeat constructor; assumption|].
      inversion IH; subst. constructor; [|assumption]. simpl. now split.
Qed.

Lemma split_join toks :
  toks <> [] -> Forall dash_free toks ->
  split dash (join (String dash EmptyString) toks) = toks.
Proof.
  induction toks as [|t toks IH]; intros Hne Hall; [congruence|].
  inversion Hall; subst. destruct toks as [|u toks].
  - simpl. now apply split_last.
  - rewrite join_next.
    change (String dash EmptyString ++ join (String dash EmptyString) (u :: toks))%string
      with (String dash (join (String dash EmptyString) (u :: toks))).
    rewrite split_token by assumption. f_equal. apply IH; [discriminate|assumption].
Qed.

Lemma string_app_assoc (a b c : string) :
  ((a ++ b) ++ c = a ++ (b ++ c))%string.
Proof. induction a as [|x a IH]; simpl; [reflexivity | now rewrite IH]. Qed.

Lemma join_firstn sep n : forall l,
  exists rest, join sep l = (join sep (firstn n l) ++ rest)%string.
Proof.
  induction n as [|n IH]; intros l.
  - exists (join sep l). reflexivity.
  - destruct l as [|t l]; [exists EmptyString; reflexivity|].
    destruct l as [|u l].
    + exists EmptyString. rewrite firstn_cons, firstn_nil. simpl.
      clear. induction t as [|c t IH]; simpl; [reflexivity | now rewrite <- IH].
    + destruct (IH (u :: l)) as [rest Hrest]. rewrite firstn_cons.
      destruct n as [|n].
      * exists (sep ++ join sep (u :: l))%string. reflexivity.
      * rewrite join_next. rewrite Hrest.
        cbn [firstn] in *. rewrite join_next.
        exists rest. now rewrite !string_app_assoc.
Qed.

(** X16.  The grouping key of an ID is a prefix of the ID, is its own
    grouping key, and is the whole ID when the ID has at most two
    dash-separated tokens. *)
Theorem group_key_stable key :
  group_key (group_key key) = group_key key /\
  (exists rest, key = (group_key key ++ rest)%string) /\
  (List.length (split dash key) <= 2 -> group_key key = key).
Proof.
  split; [|split].
  - unfold group_key. rewrite split_join.
    + now rewrite firstn_firstn.
    + pose proof (split_nonempty dash key).
      destruct (split dash key); [congruence | discriminate].
    + pose proof (split_dash_free key) as H.
      destruct (split dash key) as [|a [|b l]]; simpl; try assumption.
      inversion H as [|? ? Ha Hl]; subst. inversion Hl; subst.
      now repeat constructor.
  - destruct (join_firstn (String dash EmptyString) 2 (split dash key))
      as [rest H].
    exists rest. unfold group_key. rewrite <- H. symmetry. apply join_split.
  - intros H. unfold group_key. rewrite firstn_all2 by exact H.
    apply join_split.
Qed.

(** *** The samples of a class *)



(** *** The statements at concrete inputs *)

Lemma validate_needs_every_id_witness :
  validate pairwise_auc views 2 4 2 = inl ValueError.
Proof. apply validate_needs_every_id. simpl. lia. Defined.

Lemma validate_ignores_batching_witness :
  validate pairwise_auc views 2 3 2 = validate pairwise_auc one_batch 3 3 2.
Proof.
  apply validate_ignores_batching; try reflexivity.
  - simpl. repeat split; lia.
  - simpl. repeat split; lia.
Defined.

Lemma class_loop_errors_witness :
  (RuntimeError <> ValueError /\
   exists a b, failing_score a b = inl RuntimeError) /\
  exists l, class_aucs pairwise_auc 2 well_targets well_predictions = inr l /\
            List.length l = 2.
Proof.
  split.
  - apply (proj1 (class_loop_errors failing_score 2 well_targets well_predictions)).
    reflexivity.
  - apply (proj2 (class_loop_errors pairwise_auc 2 well_targets well_predictions)).
    intros a b e. unfold pairwise_auc.
    destruct (scores_of 1%Q a b); [intros H; now inversion H|].
    destruct (scores_of 0%Q a b); intros H; now inversion H.
Defined.

Lemma mean_auc_range_witness :
  (2 = 0 /\ Some (average [3 # 4; 1 # 2]%Q) = None) \/
  (0 < 2 /\ exists v, Some (average [3 # 4; 1 # 2]%Q) = Some v /\
                      (0 <= v <= 1)%Q).
Proof.
  apply (mean_auc_range constant_score views 2 3 2).
  - intros a b v H. inversion H; subst. split; discriminate.
  - reflexivity.
Defined.

Lemma single_class_columns_witness :
  class_aucs pairwise_auc 2 single_class_targets well_predictions
  = inr (repeat (1 # 2)%Q 2) /\
  (exists v, np_mean (repeat (1 # 2)%Q 2) = Some v /\ (v == 1 # 2)%Q) /\
  np_mean (repeat (1 # 2)%Q 0) = None.
Proof.
  assert (H : forall i, i < 2 ->
     ~ ((exists j, j < List.length single_class_targets /\
                   (nth i (nth j single_class_targets []) 0 == 0)%Q) /\
        (exists j, j < List.length single_class_targets /\
                   (nth i (nth j single_class_targets []) 0 == 1)%Q))).
  { intros [|[|i]] Hi; [| |lia]; simpl.
    - intros [[[|[|j]] [Hj E]] _]; [discriminate E | discriminate E | lia].
    - intros [_ [[|[|j]] [Hj E]]]; [discriminate E | discriminate E | lia]. }
  destruct (single_class_columns pairwise_auc 2 single_class_targets
                                 well_predictions H) as [Haucs [_ Hmean]].
  split; [exact Haucs|]. split; [apply Hmean; lia|].
  apply (single_class_columns pairwise_auc 0 [] []); [intros i Hi; lia|].
  reflexivity.
Defined.

Lemma groups_aligned_witness :
  map fst (grouped_predictions 2 view_predictions)
  = map fst (grouped_targets view_targets) /\
  List.length (grouped_predictions 2 view_predictions)
  = List.length (grouped_targets view_targets) /\
  List.length (grouped_targets view_targets) <= List.length view_targets.
Proof. apply groups_aligned. reflexivity. Defined.

Lemma group_key_stable_witness : group_key "p1-w1" = "p1-w1"%string.
Proof.
  apply (proj2 (proj2 (group_key_stable "p1-w1"))). simpl. lia.
Defined.

End ValidateMore.
